(** * Smith-Waterman chunk alignment (alignment.py)

    A shallow embedding of [smith_waterman_chunks] and
    [find_multiple_alignments].  Scores are exact rationals ([Q]): the
    source computes on float64 and neither rounding nor NaN is modelled.
    numpy arrays are rows of cells with checked indexing (an index out of
    the shape is [None], numpy's IndexError); the arrays that the extractor
    copies and mutates live in a store of array objects. *)

From Stdlib Require Import QArith Qminmax Lqa ZArith Lia Ascii.
From stdpp Require Import base option list sorting strings gmap.

Local Open Scope nat_scope.

(** ** numpy arrays of rank 2 *)

Record ndarray (A : Type) := NDArray {
  nd_rows : nat;
  nd_cols : nat;
  nd_data : list (list A)
}.
Arguments NDArray {A} _ _ _.
Arguments nd_rows {A} _.
Arguments nd_cols {A} _.
Arguments nd_data {A} _.

(** [a.shape] *)
Definition shape {A} (a : ndarray A) : nat * nat := (nd_rows a, nd_cols a).

(** The data of an array agrees with its shape. *)
Definition wf {A} (a : ndarray A) : Prop :=
  length (nd_data a) = nd_rows a ∧
  Forall (λ r, length r = nd_cols a) (nd_data a).

(** [np.zeros((r, c))] and, with [v := 0%nat], [np.zeros((r, c), dtype=int)] *)
Definition full {A} (r c : nat) (v : A) : ndarray A :=
  NDArray r c (replicate r (replicate c v)).

(** [a[i, j]] for indices that are not negative *)
Definition getitem {A} (a : ndarray A) (i j : nat) : option A :=
  row ← nd_data a !! i; row !! j.

(** [a[i, j] = v] *)
Definition setitem {A} (a : ndarray A) (i j : nat) (v : A) : option (ndarray A) :=
  row ← nd_data a !! i;
  if decide (j < length row)
  then Some (NDArray (nd_rows a) (nd_cols a) (<[i := <[j := v]> row]> (nd_data a)))
  else None.

(** ** config.py *)

Definition GAP_OPEN : Q := (-2 # 10)%Q.
Definition GAP_EXTEND : Q := (-1 # 10)%Q.
Definition SCORE_THRESHOLD : Q := (5 # 10)%Q.

(** [x < y] on scores, as a boolean *)
Definition Qltb (x y : Q) : bool := if Qlt_le_dec x y then true else false.

(** ** smith_waterman_chunks *)

(** [np.argmax]: the index of the first occurrence of the maximum. *)
Fixpoint argmax_from (best_i : nat) (best : Q) (k : nat) (l : list Q) : nat :=
  match l with
  | [] => best_i
  | x :: l' =>
      if Qlt_le_dec best x then argmax_from k x (S k) l'
      else argmax_from best_i best (S k) l'
  end.

Definition argmax (l : list Q) : nat :=
  match l with
  | [] => 0
  | x :: l' => argmax_from 0 x 1 l'
  end.

(** The values stored in [traceback] (line 39). *)
Definition STOP : nat := 0.
Definition DIAGONAL : nat := 1.
Definition UP : nat := 2.
Definition LEFT : nat := 3.

(** The local variables of the fill loops. *)
Record sw_state := SwState {
  H_matrix : ndarray Q;
  traceback : ndarray nat;
  max_score : Q;
  max_pos : nat * nat
}.

(** [range(lo, hi)] *)
Definition range (lo hi : nat) : list nat := seq lo (hi - lo).

(** [for x in xs: st = body(x, st)] *)
Fixpoint for_loop {St} (xs : list nat) (body : nat → St → option St) (st : St)
  : option St :=
  match xs with
  | [] => Some st
  | x :: xs' => st' ← body x st; for_loop xs' body st'
  end.

(** The body of the inner loop, lines 31-47. *)
Definition sw_cell (S : ndarray Q) (gap_open gap_extend score_threshold : Q)
    (i j : nat) (st : sw_state) : option sw_state :=
  s ← getitem S (i - 1) (j - 1);
  let sim := (s - score_threshold)%Q in
  h_diag ← getitem (H_matrix st) (i - 1) (j - 1);
  let match_ := (h_diag + sim)%Q in
  h_up ← getitem (H_matrix st) (i - 1) j;
  t_up ← getitem (traceback st) (i - 1) j;
  let gap_h := (h_up + (if t_up =? 2 then gap_extend else gap_open))%Q in
  h_left ← getitem (H_matrix st) i (j - 1);
  t_left ← getitem (traceback st) i (j - 1);
  let gap_b := (h_left + (if t_left =? 3 then gap_extend else gap_open))%Q in
  let scores := [0%Q; match_; gap_h; gap_b] in
  let best := argmax scores in
  v ← scores !! best;
  H' ← setitem (H_matrix st) i j v;
  T' ← setitem (traceback st) i j best;
  h ← getitem H' i j;
  if Qlt_le_dec (max_score st) h
  then Some (SwState H' T' h (i, j))
  else Some (SwState H' T' (max_score st) (max_pos st)).

(** Lines 23-47: the two tables after the fill loops. *)
Definition sw_fill (S : ndarray Q) (gap_open gap_extend score_threshold : Q)
  : option sw_state :=
  let '(n_human, n_bact) := shape S in
  let st0 := SwState (full (n_human + 1) (n_bact + 1) 0%Q)
                     (full (n_human + 1) (n_bact + 1) 0) 0%Q (0, 0) in
  for_loop (range 1 (n_human + 1))
    (λ i, for_loop (range 1 (n_bact + 1))
            (sw_cell S gap_open gap_extend score_threshold i))
    st0.

(** The traceback loop, lines 52-62.  Every iteration that does not leave
    the loop decreases [i] or [j]; the recursion is on [i], and for a fixed
    [i] on [j]. *)
Fixpoint sw_trace (H : ndarray Q) (T : ndarray nat) (i : nat)
  : nat → list (nat * nat) → option (list (nat * nat)) :=
  fix at_col (j : nat) (alignment : list (nat * nat)) :=
    match i, j with
    | S i', S j' =>
        h ← getitem H i j;
        if Qlt_le_dec 0 h then
          t ← getitem T i j;
          if t =? 1 then sw_trace H T i' j' (alignment ++ [(i', j')])
          else if t =? 2 then sw_trace H T i' j alignment
          else if t =? 3 then at_col j' alignment
          else Some alignment
        else Some alignment
    | _, _ => Some alignment
    end.

Definition smith_waterman_chunks (S : ndarray Q)
    (gap_open gap_extend score_threshold : Q)
  : option (Q * list (nat * nat) * ndarray Q) :=
  st ← sw_fill S gap_open gap_extend score_threshold;
  let '(i, j) := max_pos st in
  alignment ← sw_trace (H_matrix st) (traceback st) i j [];
  Some (max_score st, rev alignment, H_matrix st).

(** ** find_multiple_alignments *)

(** Array objects are held in a store and named by their location. *)
Definition loc := nat.
Abbreviation store := (gmap loc (ndarray Q)).

(** [S.copy()]: a new object with the cells of [S]. *)
Definition ndarray_copy (S : loc) (σ : store) : option (loc * store) :=
  a ← σ !! S;
  let l := fresh (dom σ) in
  Some (l, <[l := a]> σ).

(** [W[i, j] = v] on the object at [W]. *)
Definition store_setitem (W : loc) (i j : nat) (v : Q) (σ : store) : option store :=
  a ← σ !! W;
  a' ← setitem a i j v;
  Some (<[W := a']> σ).

(** Lines 97-98: [for i, j in alignment: S_work[i, j] = 0]. *)
Fixpoint mask (S_work : loc) (alignment : list (nat * nat)) (σ : store)
  : option store :=
  match alignment with
  | [] => Some σ
  | (i, j) :: rest => σ' ← store_setitem S_work i j 0%Q σ; mask S_work rest σ'
  end.

(** The loop of lines 87-98, [n] iterations left. *)
Fixpoint extract_loop (n : nat) (S_work : loc) (gap_open gap_extend min_score : Q)
    (min_chunks : Z) (alignments : list (Q * list (nat * nat))) (σ : store)
  : option (list (Q * list (nat * nat)) * store) :=
  match n with
  | 0 => Some (alignments, σ)
  | S n' =>
      a ← σ !! S_work;
      '(score, alignment, _) ← smith_waterman_chunks a gap_open gap_extend SCORE_THRESHOLD;
      if Qltb score min_score || (Z.of_nat (length alignment) <? min_chunks)%Z
      then Some (alignments, σ)
      else
        σ' ← mask S_work alignment σ;
        extract_loop n' S_work gap_open gap_extend min_score min_chunks
          (alignments ++ [(score, alignment)]) σ'
  end.

Definition find_multiple_alignments (S : loc) (gap_open gap_extend min_score : Q)
    (min_chunks max_alignments : Z) (σ : store)
  : option (list (Q * list (nat * nat)) * store) :=
  '(S_work, σ1) ← ndarray_copy S σ;
  extract_loop (Z.to_nat max_alignments) S_work gap_open gap_extend min_score
    min_chunks [] σ1.

(** The extractor on a store that holds only the caller's matrix. *)
Definition run_find (S : ndarray Q) (gap_open gap_extend min_score : Q)
    (min_chunks max_alignments : Z) : option (list (Q * list (nat * nat))) :=
  fst <$> find_multiple_alignments 0 gap_open gap_extend min_score min_chunks
            max_alignments {[ 0 := S ]}.

(** ** Specification devices *)

(** The four candidates of a cell, in the order of the list [scores]. *)
Definition cands (gap_open gap_extend score_threshold : Q)
    (s h_diag h_up : Q) (t_up : nat) (h_left : Q) (t_left : nat) : list Q :=
  [0; h_diag + (s - score_threshold);
   h_up + (if t_up =? 2 then gap_extend else gap_open);
   h_left + (if t_left =? 3 then gap_extend else gap_open)]%Q.

(** The score and the tag of every cell, by recursion on the cell: what the
    fill loops are shown to store. *)
Fixpoint table (S : ndarray Q) (gap_open gap_extend score_threshold : Q) (i : nat)
  : nat → Q * nat :=
  match i with
  | 0 => λ _, (0%Q, 0)
  | S i' =>
      fix row (j : nat) : Q * nat :=
        match j with
        | 0 => (0%Q, 0)
        | S j' =>
            let s := default 0%Q (getitem S i' j') in
            let d := table S gap_open gap_extend score_threshold i' j' in
            let u := table S gap_open gap_extend score_threshold i' j in
            let l := row j' in
            let scores := cands gap_open gap_extend score_threshold
                            s d.1 u.1 u.2 l.1 l.2 in
            (default 0%Q (scores !! argmax scores), argmax scores)
        end
  end.

Arguments table : simpl never.
Arguments argmax : simpl never.

(** Cell [(a, b)] is written before the iteration [(i, j)] of the loops. *)
Definition filled (i j a b : nat) : Prop := a < i ∨ (a = i ∧ b < j).

(** The invariant of the fill loops at the start of iteration [(i, j)]. *)
Record fill_inv (S : ndarray Q) (gap_open gap_extend score_threshold : Q)
    (i j : nat) (st : sw_state) : Prop := FillInv {
  inv_wf_H : wf (H_matrix st);
  inv_wf_T : wf (traceback st);
  inv_shape_H : shape (H_matrix st) = (nd_rows S + 1, nd_cols S + 1);
  inv_shape_T : shape (traceback st) = (nd_rows S + 1, nd_cols S + 1);
  inv_cells : ∀ a b, a ≤ nd_rows S → b ≤ nd_cols S →
    a = 0 ∨ b = 0 ∨ filled i j a b →
    getitem (H_matrix st) a b
      = Some (table S gap_open gap_extend score_threshold a b).1 ∧
    getitem (traceback st) a b
      = Some (table S gap_open gap_extend score_threshold a b).2;
  inv_max_nonneg : (0 <= max_score st)%Q;
  inv_max_ub : ∀ a b, a ≤ nd_rows S → b ≤ nd_cols S → filled i j a b →
    ((table S gap_open gap_extend score_threshold a b).1 <= max_score st)%Q;
  inv_max_pos :
    (max_score st = 0%Q ∧ max_pos st = (0, 0)) ∨
    (∃ a b, max_pos st = (a, b) ∧ 1 ≤ a ≤ nd_rows S ∧ 1 ≤ b ≤ nd_cols S ∧
            filled i j a b ∧
            max_score st = (table S gap_open gap_extend score_threshold a b).1 ∧
            (0 < max_score st)%Q)
}.

(** Cell updates on array values: the masked matrix. *)
Fixpoint mask_array (W : ndarray Q) (alignment : list (nat * nat))
  : option (ndarray Q) :=
  match alignment with
  | [] => Some W
  | (i, j) :: rest => W' ← setitem W i j 0%Q; mask_array W' rest
  end.

(** The loop of the extractor on array values: the list of alignments and
    the final working matrix. *)
Fixpoint extract_val (n : nat) (W : ndarray Q) (gap_open gap_extend min_score : Q)
    (min_chunks : Z) (alignments : list (Q * list (nat * nat)))
  : option (list (Q * list (nat * nat)) * ndarray Q) :=
  match n with
  | 0 => Some (alignments, W)
  | S n' =>
      '(score, alignment, _) ← smith_waterman_chunks W gap_open gap_extend SCORE_THRESHOLD;
      if Qltb score min_score || (Z.of_nat (length alignment) <? min_chunks)%Z
      then Some (alignments, W)
      else
        W' ← mask_array W alignment;
        extract_val n' W' gap_open gap_extend min_score min_chunks
          (alignments ++ [(score, alignment)])
  end.

(** Every cell of [M'] is at most the cell of [M]. *)
Definition cells_le (M' M : ndarray Q) : Prop :=
  shape M' = shape M ∧
  ∀ i j s s', getitem M' i j = Some s' → getitem M i j = Some s → (s' <= s)%Q.

(** No cell of [M] is negative. *)
Definition cells_nonneg (M : ndarray Q) : Prop :=
  ∀ i j s, getitem M i j = Some s → (0 <= s)%Q.

(** The scores of a list of alignments never increase along the list. *)
Definition non_increasing (l : list Q) : Prop :=
  ∀ k x y, l !! k = Some x → l !! (k + 1) = Some y → (y <= x)%Q.

(** ** Concrete inputs *)

(** The matrix of [test_alignment] in tests/test_modules.py. *)
Definition test_S : ndarray Q :=
  NDArray 3 3 [[9#10; 8#10; 3#10]; [7#10; 9#10; 4#10]; [3#10; 5#10; 8#10]]%Q.

(** A 3 x 3 matrix of 0.4, below the threshold 0.5 everywhere. *)
Definition low_S : ndarray Q := full 3 3 (4 # 10)%Q.

(** Raising the entry (1, 1) of [mono_S] from 1/4 to 3/4 gives [mono_S']. *)
Definition mono_S : ndarray Q :=
  NDArray 3 4 [[3#8; 1#2; 5#8; 3#4]; [1; 1#4; 1#2; 1#8]; [1; 0; 3#8; 1]]%Q.
Definition mono_S' : ndarray Q :=
  NDArray 3 4 [[3#8; 1#2; 5#8; 3#4]; [1; 3#4; 1#2; 1#8]; [1; 0; 3#8; 1]]%Q.

(** A matrix whose second alignment scores more than its first. *)
Definition order_S : ndarray Q :=
  NDArray 3 5 [[1; 3#4; 3#8; 1; 7#8]; [7#8; 3#4; 1; 1; 1#2];
               [7#8; 1; 5#8; 3#4; 1]]%Q.

(** A matrix whose second alignment reuses a cell of its first. *)
Definition overlap_S : ndarray Q :=
  NDArray 5 3 [[7#2; -1; -1]; [7#2; -1; -1]; [-1; 7#2; -1]; [-1; -1; 7#2];
               [-1; -1; 7#2]]%Q.

(** [overlap_S] with the ends raised and the shared cell negative. *)
Definition order_neg_S : ndarray Q :=
  NDArray 5 3 [[9#2; -5; -5]; [7#2; -5; -5]; [-5; -1; -5]; [-5; -5; 7#2];
               [-5; -5; 9#2]]%Q.

(** A 10 x 8 matrix of 1 and -1, values that cosine similarities can take,
    whose second alignment reuses the cell (4, 3) of its first. *)
Definition overlap_cosine_S : ndarray Q :=
  NDArray 10 8
    [[ 1; -1; -1; -1; -1; -1; -1; -1];
     [ 1;  1; -1; -1; -1; -1; -1; -1];
     [-1;  1;  1; -1; -1; -1; -1; -1];
     [-1; -1;  1; -1; -1; -1; -1; -1];
     [-1; -1; -1;  1; -1; -1; -1; -1];
     [-1; -1; -1; -1;  1; -1; -1; -1];
     [-1; -1; -1; -1;  1;  1; -1; -1];
     [-1; -1; -1; -1; -1;  1;  1; -1];
     [-1; -1; -1; -1; -1; -1;  1;  1];
     [-1; -1; -1; -1; -1; -1; -1;  1]]%Q.

(** ** Further specification devices *)

(** Both indices grow from [p] to [q]. *)
Definition pair_lt (p q : nat * nat) : Prop := p.1 < q.1 ∧ p.2 < q.2.

(** The sum of [S[i, j] - score_threshold] over the pairs of an alignment. *)
Definition path_gain (S : ndarray Q) (score_threshold : Q)
    (alignment : list (nat * nat)) : Q :=
  foldr (λ p acc, (default 0 (getitem S p.1 p.2) - score_threshold) + acc)%Q 0%Q
        alignment.

(** [max_pos] is the first cell, in the order of the loops, that holds
    [max_score]: every cell before it holds less. *)
Definition first_max (S : ndarray Q) (gap_open gap_extend score_threshold : Q)
    (st : sw_state) : Prop :=
  ∀ p q a b, max_pos st = (p, q) → 1 ≤ a → 1 ≤ b ≤ nd_cols S →
    filled p q a b →
    ((table S gap_open gap_extend score_threshold a b).1 < max_score st)%Q.

(** ** chunking.py: chunk_protein *)

(** A row of the returned DataFrame.  The characters of the sequence and
    the protein identifier are kept abstract: the function only takes the
    length of the sequence and slices it. *)
Record chunk (Id A : Type) := Chunk {
  protein_id : Id;
  chunk_index : Z;
  start : Z;
  end_ : Z;
  chunk_seq : list A
}.
Arguments Chunk {Id A} _ _ _ _ _.
Arguments protein_id {Id A} _.
Arguments chunk_index {Id A} _.
Arguments start {Id A} _.
Arguments end_ {Id A} _.
Arguments chunk_seq {Id A} _.

(** A slice bound of Python: negative bounds count from the end, and every
    bound is clipped to the sequence. *)
Definition slice_bound (x L : Z) : Z :=
  if (x <? 0)%Z then Z.max (x + L) 0 else Z.min x L.

(** [sequence[lo:hi]] *)
Definition py_slice {A} (sequence : list A) (lo hi : Z) : list A :=
  let L := Z.of_nat (length sequence) in
  let a := slice_bound lo L in
  let b := slice_bound hi L in
  take (Z.to_nat (b - a)) (drop (Z.to_nat a) sequence).

(** The while loop of lines 44-60; [None] when the fuel runs out. *)
Fixpoint chunk_loop {Id A} (fuel : nat) (pid : Id) (sequence : list A)
    (chunk_len stride : Z) (start_ chunk_index_ : Z) (chunks : list (chunk Id A))
  : option (list (chunk Id A)) :=
  match fuel with
  | 0 => None
  | S fuel' =>
      let L := Z.of_nat (length sequence) in
      if (start_ <? L)%Z then
        let end__ := Z.min (start_ + chunk_len) L in
        let subseq := py_slice sequence start_ end__ in
        let chunks' :=
          chunks ++ [Chunk pid chunk_index_ (start_ + 1) end__ subseq] in
        if (end__ =? L)%Z then Some chunks'
        else chunk_loop fuel' pid sequence chunk_len stride
               (start_ + stride) (chunk_index_ + 1) chunks'
      else Some chunks
  end.

(** [chunk_protein]: the rows of the DataFrame, in order. *)
Definition chunk_protein {Id A} (fuel : nat) (pid : Id) (sequence : list A)
    (chunk_len stride : Z) : option (list (chunk Id A)) :=
  let L := Z.of_nat (length sequence) in
  if (L <=? chunk_len)%Z then Some [Chunk pid 0 1 L sequence]
  else chunk_loop fuel pid sequence chunk_len stride 0 0 [].

Definition CHUNK_LEN : Z := 10.
Definition CHUNK_STRIDE : Z := 5.

(** The rows describe the windows of the sequence: row [m] has index [m],
    starts at [m * stride + 1] (1-indexed), ends at
    [min (m * stride + chunk_len) L] and holds that part of the sequence. *)
Definition chunk_rows_ok {Id A} (pid : Id) (sequence : list A)
    (chunk_len stride : Z) (chunks : list (chunk Id A)) : Prop :=
  ∀ m c, chunks !! m = Some c →
    protein_id c = pid ∧
    chunk_index c = Z.of_nat m ∧
    start c = (Z.of_nat m * stride + 1)%Z ∧
    end_ c = Z.min (Z.of_nat m * stride + chunk_len)
                   (Z.of_nat (length sequence)) ∧
    chunk_seq c = take (Z.to_nat (end_ c - (start c - 1)))
                       (drop (Z.to_nat (start c - 1)) sequence) ∧
    (start c - 1 < Z.max 1 (Z.of_nat (length sequence)))%Z.

(** ** interpretation.py: the positions of an aligned region *)

(** Lines 58-65 of [interpret_alignment] (and the same lines of
    [prepare_analysis_data]) for one of the two sequences:
    [chunks.iloc[indices[0]]['start']] and [chunks.iloc[indices[-1]]['end']].
    [None] is the IndexError of an empty index list or of a row that does
    not exist. *)
Definition aligned_region {Id A} (chunks : list (chunk Id A)) (indices : list nat)
  : option (Z * Z) :=
  first ← head indices;
  final ← last indices;
  c1 ← chunks !! first;
  c2 ← chunks !! final;
  Some (start c1, end_ c2).

(** ** protein_utils.py: sanitize_protein_id *)

(** A string is the list of the bytes of its UTF-8 text.  The bar and the
    replaced characters are ASCII, so [split] and [replace] act on the bytes
    as they act on the characters of a Python string. *)

(** The characters of the loop of line 28: less-than, greater-than, colon,
    double quote, slash, backslash, bar, question mark and star. *)
Definition invalid_chars : list ascii :=
  ["<"; ">"; ":"; "034"; "/"; "\"; "|"; "?"; "*"]%char.

(** [s.replace(c, r)] for single characters *)
Definition str_replace (c r : ascii) (s : list ascii) : list ascii :=
  map (λ x, if Ascii.eqb x c then r else x) s.

(** [s.split(sep)] for a single character: the parts between the
    separators, [['']] for the empty string. *)
Fixpoint str_split (sep : ascii) (s : list ascii) : list (list ascii) :=
  match s with
  | [] => [[]]
  | x :: s' =>
      if Ascii.eqb x sep then [] :: str_split sep s'
      else match str_split sep s' with
           | part :: parts => (x :: part) :: parts
           | [] => [[x]]
           end
  end.

Definition sanitize_protein_id (protein_id : list ascii) : list ascii :=
  let clean_id :=
    if existsb (Ascii.eqb "|"%char) protein_id then
      let parts := str_split "|"%char protein_id in
      if 2 <=? length parts then nth 1 parts [] else protein_id
    else protein_id in
  foldl (λ clean char, str_replace char "_"%char clean) clean_id invalid_chars.

(** What the loop does to one character. *)
Definition clean_char (x : ascii) : ascii :=
  if existsb (Ascii.eqb x) invalid_chars then "_"%char else x.

(** ** interpretation.py: generate_summary_stats *)

(** The returned dict.  The two descriptor frames are not used by the
    function. *)
Record summary_stats := SummaryStats {
  num_human_chunks : nat;
  num_bact_chunks : nat;
  num_alignments : nat;
  total_aligned_chunks : nat;
  stats_max_score : Q;
  stats_avg_score : Q
}.

(** [max(xs, default=0)]: the first of the largest elements. *)
Definition py_max_default (xs : list Q) : Q :=
  match xs with
  | [] => 0%Q
  | x :: xs' => foldl (λ m y, if Qlt_le_dec m y then y else m) x xs'
  end.

(** [sum(xs)] over scores and over lengths *)
Definition py_sum_Q (xs : list Q) : Q := foldl Qplus 0%Q xs.
Definition py_sum_nat (xs : list nat) : nat := foldl Nat.add 0 xs.

Definition generate_summary_stats {C1 C2} (human_chunks : list C1)
    (bact_chunks : list C2) (alignments : list (Q * list (nat * nat)))
  : summary_stats :=
  SummaryStats
    (length human_chunks) (length bact_chunks) (length alignments)
    (py_sum_nat (map (λ x, length x.2) alignments))
    (py_max_default (map fst alignments))
    (match alignments with
     | [] => 0%Q
     | _ => (py_sum_Q (map fst alignments)
             / inject_Z (Z.of_nat (length alignments)))%Q
     end).

(** ** functional_annotations.py: check_domain_overlap *)

(** The returned dict.  The order in which Python lists a set is not
    specified; here the lists are [elements] of the sets. *)
Record domain_overlap := DomainOverlap {
  human_domains : list string;
  bacteria_domains : list string;
  shared_domains : list string;
  has_overlap : bool;
  overlap_count : nat
}.

(** [set(domains) if domains else set()]; [None] is Python's None. *)
Definition domain_set (domains : option (list string)) : gset string :=
  match domains with
  | Some (d :: ds) => list_to_set (d :: ds)
  | _ => ∅
  end.

Definition check_domain_overlap (human bact : option (list string))
  : domain_overlap :=
  let human_set := domain_set human in
  let bact_set := domain_set bact in
  let shared := human_set ∩ bact_set in
  DomainOverlap (elements human_set) (elements bact_set) (elements shared)
                (bool_decide (0 < size shared)) (size shared).

(** ** Facts about arrays *)

Section Arrays.
Context {A : Type}.
Implicit Types a : ndarray A.

Lemma wf_full r c (v : A) : wf (full r c v).
Proof.
  split; simpl.
  - by rewrite length_replicate.
  - apply Forall_replicate. by rewrite length_replicate.
Qed.

Lemma getitem_full r c (v : A) i j :
  i < r → j < c → getitem (full r c v) i j = Some v.
Proof.
  intros Hi Hj. unfold getitem, full; simpl.
  rewrite lookup_replicate_2 by done. simpl.
  by rewrite lookup_replicate_2.
Qed.

Lemma getitem_Some_lt a i j v :
  wf a → getitem a i j = Some v → i < nd_rows a ∧ j < nd_cols a.
Proof.
  intros [Hr Hc] Hg. unfold getitem in Hg.
  destruct (nd_data a !! i) as [row|] eqn:Hrow; simpl in Hg; [|done].
  split.
  - rewrite <- Hr. by eapply lookup_lt_Some.
  - rewrite Forall_lookup in Hc. rewrite <- (Hc _ _ Hrow).
    by eapply lookup_lt_Some.
Qed.

Lemma getitem_is_Some a i j :
  wf a → i < nd_rows a → j < nd_cols a → is_Some (getitem a i j).
Proof.
  intros [Hr Hc] Hi Hj. unfold getitem.
  destruct (lookup_lt_is_Some_2 (nd_data a) i) as [row Hrow]; [lia|].
  rewrite Hrow; simpl. apply lookup_lt_is_Some_2.
  rewrite Forall_lookup in Hc. rewrite (Hc _ _ Hrow). done.
Qed.

Lemma setitem_is_Some a i j v :
  wf a → i < nd_rows a → j < nd_cols a → is_Some (setitem a i j v).
Proof.
  intros [Hr Hc] Hi Hj. unfold setitem.
  destruct (lookup_lt_is_Some_2 (nd_data a) i) as [row Hrow]; [lia|].
  rewrite Hrow; simpl.
  rewrite Forall_lookup in Hc. rewrite (Hc _ _ Hrow).
  by rewrite decide_True.
Qed.

Lemma setitem_inv a i j v a' :
  setitem a i j v = Some a' →
  ∃ row, nd_data a !! i = Some row ∧ j < length row ∧
         a' = NDArray (nd_rows a) (nd_cols a) (<[i := <[j := v]> row]> (nd_data a)).
Proof.
  unfold setitem. intros Hs.
  destruct (nd_data a !! i) as [row|] eqn:Hrow; simpl in Hs; [|done].
  destruct (decide (j < length row)); [|done].
  exists row. by inversion Hs.
Qed.

Lemma setitem_shape a i j v a' :
  setitem a i j v = Some a' → nd_rows a' = nd_rows a ∧ nd_cols a' = nd_cols a.
Proof. intros (row & _ & _ & ->)%setitem_inv. done. Qed.

Lemma setitem_wf a i j v a' :
  wf a → setitem a i j v = Some a' → wf a'.
Proof.
  intros [Hr Hc] (row & Hrow & Hj & ->)%setitem_inv. split; simpl.
  - by rewrite length_insert.
  - apply Forall_insert; [done|]. rewrite length_insert.
    rewrite Forall_lookup in Hc. by apply (Hc _ _ Hrow).
Qed.

Lemma getitem_setitem_eq a i j v a' :
  setitem a i j v = Some a' → getitem a' i j = Some v.
Proof.
  intros (row & Hrow & Hj & ->)%setitem_inv. unfold getitem; simpl.
  rewrite list_lookup_insert_eq by (by eapply lookup_lt_Some). simpl.
  by rewrite list_lookup_insert_eq.
Qed.

Lemma getitem_setitem_ne a i j v a' i' j' :
  setitem a i j v = Some a' → (i', j') ≠ (i, j) →
  getitem a' i' j' = getitem a i' j'.
Proof.
  intros (row & Hrow & Hj & ->)%setitem_inv Hne. unfold getitem; simpl.
  destruct (decide (i' = i)) as [->|Hi].
  - rewrite list_lookup_insert_eq by (by eapply lookup_lt_Some).
    rewrite Hrow; simpl. apply list_lookup_insert_ne. congruence.
  - by rewrite list_lookup_insert_ne.
Qed.
End Arrays.

(** ** The fill loops compute [table] *)

Lemma argmax4_spec (a b c d : Q) :
  ∃ v, [a; b; c; d] !! argmax [a; b; c; d] = Some v ∧
       (a <= v ∧ b <= v ∧ c <= v ∧ d <= v)%Q ∧
       ((argmax [a; b; c; d] = 0 ∧ v = a) ∨
        (argmax [a; b; c; d] = 1 ∧ v = b ∧ (a < b)%Q) ∨
        (argmax [a; b; c; d] = 2 ∧ v = c ∧ (a < c ∧ b < c)%Q) ∨
        (argmax [a; b; c; d] = 3 ∧ v = d ∧ (a < d ∧ b < d ∧ c < d)%Q)).
Proof.
  unfold argmax; simpl.
  repeat (match goal with |- context [Qlt_le_dec ?x ?y] =>
            destruct (Qlt_le_dec x y) end; simpl);
    eexists; (split; [reflexivity|]); (split; [repeat split; lra|]);
    first [ left; split; [reflexivity|reflexivity]
          | right; left; repeat split; first [reflexivity | lra]
          | right; right; left; repeat split; first [reflexivity | lra]
          | right; right; right; repeat split; first [reflexivity | lra] ].
Qed.

Lemma table_step M go ge th i j :
  table M go ge th (S i) (S j) =
    let sc := cands go ge th (default 0%Q (getitem M i j))
                (table M go ge th i j).1
                (table M go ge th i (S j)).1 (table M go ge th i (S j)).2
                (table M go ge th (S i) j).1 (table M go ge th (S i) j).2 in
    (default 0%Q (sc !! argmax sc), argmax sc).
Proof. reflexivity. Qed.

Lemma table_row0 M go ge th j : table M go ge th 0 j = (0%Q, 0).
Proof. reflexivity. Qed.

Lemma table_col0 M go ge th i : table M go ge th i 0 = (0%Q, 0).
Proof. by destruct i. Qed.

Lemma for_loop_seq_inv {St} (P : nat → St → Prop) body n lo st :
  P lo st →
  (∀ k st, lo ≤ k < lo + n → P k st → ∃ st', body k st = Some st' ∧ P (S k) st') →
  ∃ st', for_loop (seq lo n) body st = Some st' ∧ P (lo + n) st'.
Proof.
  revert lo st. induction n as [|n IH]; intros lo st H0 Hstep; simpl.
  - exists st. split; [done|]. by replace (lo + 0) with lo by lia.
  - destruct (Hstep lo st) as (st1 & Hb & H1); [lia|done|].
    rewrite Hb; simpl.
    destruct (IH (S lo) st1 H1) as (st' & Hl & H').
    + intros k st2 Hk. apply Hstep. lia.
    + exists st'. split; [done|]. by replace (lo + S n) with (S lo + n) by lia.
Qed.

Lemma sw_cell_inv M go ge th i j st :
  wf M → 1 ≤ i ≤ nd_rows M → 1 ≤ j ≤ nd_cols M →
  fill_inv M go ge th i j st →
  ∃ st', sw_cell M go ge th i j st = Some st' ∧ fill_inv M go ge th i (S j) st'.
Proof.
  intros HS Hi Hj [HwH HwT HsH HsT Hcells Hnn Hub Hpos].
  destruct i as [|i]; [lia|]. destruct j as [|j]; [lia|].
  injection HsH as HrH HcH. injection HsT as HrT HcT.
  unfold sw_cell.
  replace (S i - 1) with i by lia. replace (S j - 1) with j by lia.
  destruct (getitem_is_Some M i j) as [s Hs]; [done|lia|lia|].
  destruct (Hcells i j) as [Hd _]; [lia|lia|right; right; left; lia|].
  destruct (Hcells i (S j)) as [Hu Htu]; [lia|lia|right; right; left; lia|].
  destruct (Hcells (S i) j) as [Hl Htl]; [lia|lia|right; right; right; lia|].
  rewrite Hs, Hd, Hu, Htu, Hl, Htl; simpl.
  pose proof (table_step M go ge th i j) as Ht. rewrite Hs in Ht. simpl in Ht.
  unfold cands in Ht.
  match type of Ht with
  | _ = (default _ (?l !! _), _) => set (scores := l) in *
  end.
  assert (∃ v, scores !! argmax scores = Some v ∧ (0 <= v)%Q) as (v & Hv & Hv0).
  { destruct (argmax4_spec 0 (nth 1 scores 0) (nth 2 scores 0) (nth 3 scores 0))%Q
      as (v & Hv & Hle & _).
    exists v. split; [exact Hv|tauto]. }
  rewrite Hv in Ht |- *. simpl in Ht. simpl.
  destruct (setitem_is_Some (H_matrix st) (S i) (S j) v) as [H' HH']; [done|lia|lia|].
  destruct (setitem_is_Some (traceback st) (S i) (S j) (argmax scores))
    as [T' HT']; [done|lia|lia|].
  rewrite HH', HT'; simpl.
  rewrite (getitem_setitem_eq _ _ _ _ _ HH'); simpl.
  assert (Hcells' : ∀ a b, a ≤ nd_rows M → b ≤ nd_cols M →
            a = 0 ∨ b = 0 ∨ filled (S i) (S (S j)) a b →
            getitem H' a b = Some (table M go ge th a b).1 ∧
            getitem T' a b = Some (table M go ge th a b).2).
  { intros a b Ha Hb Hab.
    destruct (decide ((a, b) = (S i, S j))) as [Heq|Hne].
    - injection Heq as -> ->. rewrite Ht; simpl.
      split; by eapply getitem_setitem_eq.
    - rewrite (getitem_setitem_ne _ _ _ _ _ _ _ HH' Hne).
      rewrite (getitem_setitem_ne _ _ _ _ _ _ _ HT' Hne).
      apply Hcells; [done|done|].
      destruct Hab as [?|[?|Hf]]; [by left|by right; left|].
      right; right. unfold filled in *.
      destruct Hf as [?|[-> ?]]; [by left|].
      right. split; [done|]. assert (b ≠ S j) by congruence. lia. }
  assert (Hshape : shape H' = (nd_rows M + 1, nd_cols M + 1) ∧
                   shape T' = (nd_rows M + 1, nd_cols M + 1)).
  { destruct (setitem_shape _ _ _ _ _ HH') as [E1 E2].
    destruct (setitem_shape _ _ _ _ _ HT') as [E3 E4].
    unfold shape. by rewrite E1, E2, E3, E4, HrH, HcH, HrT, HcT. }
  destruct Hshape as [HsH' HsT'].
  assert (HwH' := setitem_wf _ _ _ _ _ HwH HH').
  assert (HwT' := setitem_wf _ _ _ _ _ HwT HT').
  assert (Hvt : v = (table M go ge th (S i) (S j)).1) by (by rewrite Ht).
  destruct (Qlt_le_dec (max_score st) v) as [Hlt|Hge]; eexists; (split; [reflexivity|]).
  - constructor; simpl; try done.
    + intros a b Ha Hb Hf.
      destruct (decide ((a, b) = (S i, S j))) as [Heq|Hne].
      * injection Heq as -> ->. rewrite <- Hvt. lra.
      * assert (filled (S i) (S j) a b).
        { unfold filled in *. destruct Hf as [?|[-> ?]]; [by left|].
          right. split; [done|]. assert (b ≠ S j) by congruence. lia. }
        specialize (Hub a b Ha Hb H). lra.
    + right. exists (S i), (S j). repeat split; try lia; try done.
      * right. lia.
      * lra.
  - constructor; simpl; try done.
    + intros a b Ha Hb Hf.
      destruct (decide ((a, b) = (S i, S j))) as [Heq|Hne].
      * injection Heq as -> ->. by rewrite <- Hvt.
      * apply Hub; [done|done|].
        unfold filled in *. destruct Hf as [?|[-> ?]]; [by left|].
        right. split; [done|]. assert (b ≠ S j) by congruence. lia.
    + destruct Hpos as [?|(a & b & ? & ? & ? & Hf & ? & ?)]; [by left|].
      right. exists a, b. repeat split; try lia; try done.
      unfold filled in *. destruct Hf as [?|[-> ?]]; [by left|right; lia].
Qed.

Lemma fill_inv_init M go ge th :
  fill_inv M go ge th 1 1
    (SwState (full (nd_rows M + 1) (nd_cols M + 1) 0%Q)
             (full (nd_rows M + 1) (nd_cols M + 1) 0) 0%Q (0, 0)).
Proof.
  assert (Hz : ∀ a b, a = 0 ∨ b = 0 ∨ filled 1 1 a b →
                      table M go ge th a b = (0%Q, 0)).
  { intros a b Hab. assert (a = 0 ∨ b = 0) as [->| ->]
      by (unfold filled in Hab; lia).
    - apply table_row0.
    - apply table_col0. }
  constructor; simpl; try apply wf_full; try done.
  - intros a b Ha Hb Hab. rewrite (Hz a b Hab); simpl.
    split; apply getitem_full; lia.
  - intros a b _ _ Hf. rewrite (Hz a b); [done|by right; right].
  - by left.
Qed.

Lemma fill_inv_next_row M go ge th i st :
  fill_inv M go ge th i (1 + nd_cols M) st → fill_inv M go ge th (S i) 1 st.
Proof.
  intros [HwH HwT HsH HsT Hcells Hnn Hub Hpos].
  constructor; try done.
  - intros a b Ha Hb Hab. apply Hcells; [done|done|].
    unfold filled in *. lia.
  - intros a b Ha Hb Hf.
    destruct (decide (b = 0)) as [->|Hb0].
    + by rewrite table_col0.
    + apply Hub; [done|done|]. unfold filled in *. lia.
  - destruct Hpos as [?|(a & b & ? & ? & ? & Hf & ?)]; [by left|].
    right. exists a, b. repeat split; try lia; try tauto.
    unfold filled in *. lia.
Qed.

Lemma sw_fill_inv M go ge th :
  wf M →
  ∃ st, sw_fill M go ge th = Some st ∧
        fill_inv M go ge th (S (nd_rows M)) 1 st.
Proof.
  intros HM. unfold sw_fill, shape, range.
  replace (nd_rows M + 1 - 1) with (nd_rows M) by lia.
  replace (nd_cols M + 1 - 1) with (nd_cols M) by lia.
  apply (for_loop_seq_inv (λ i st, fill_inv M go ge th i 1 st)).
  - apply fill_inv_init.
  - intros i st Hi Hinv.
    destruct (for_loop_seq_inv (λ j st, fill_inv M go ge th i j st)
                (sw_cell M go ge th i) (nd_cols M) 1 st Hinv)
      as (st' & Hrow & Hinv').
    + intros j st1 Hj Hst1. apply sw_cell_inv; [done|lia|lia|done].
    + exists st'. split; [done|]. by apply fill_inv_next_row.
Qed.

(** What the finished tables hold. *)
Lemma fill_inv_final M go ge th st a b :
  fill_inv M go ge th (S (nd_rows M)) 1 st →
  a ≤ nd_rows M → b ≤ nd_cols M →
  getitem (H_matrix st) a b = Some (table M go ge th a b).1 ∧
  getitem (traceback st) a b = Some (table M go ge th a b).2 ∧
  ((table M go ge th a b).1 <= max_score st)%Q.
Proof.
  intros Hinv Ha Hb.
  assert (Hf : filled (S (nd_rows M)) 1 a b) by (unfold filled; lia).
  destruct (inv_cells _ _ _ _ _ _ _ Hinv a b) as [? ?]; [done|done|tauto|].
  repeat split; try done. by eapply inv_max_ub.
Qed.

Lemma sw_trace_eq H T i j acc :
  sw_trace H T i j acc =
    match i, j with
    | S i', S j' =>
        h ← getitem H i j;
        if Qlt_le_dec 0 h then
          t ← getitem T i j;
          if t =? 1 then sw_trace H T i' j' (acc ++ [(i', j')])
          else if t =? 2 then sw_trace H T i' j acc
          else if t =? 3 then sw_trace H T i j' acc
          else Some acc
        else Some acc
    | _, _ => Some acc
    end.
Proof. destruct i, j; reflexivity. Qed.

Lemma sw_trace_spec H T n1 n2 :
  (∀ a b, a ≤ n1 → b ≤ n2 →
     is_Some (getitem H a b) ∧ is_Some (getitem T a b)) →
  ∀ i j acc, i ≤ n1 → j ≤ n2 →
  ∃ new, sw_trace H T i j acc = Some (acc ++ new) ∧
         Forall (λ p, p.1 < i ∧ p.2 < j) new.
Proof.
  intros Hsome. induction i as [|i IHi].
  { intros j acc _ _. exists []. rewrite sw_trace_eq, app_nil_r. by split. }
  induction j as [|j IHj]; intros acc Hi Hj.
  { exists []. rewrite sw_trace_eq, app_nil_r. by split. }
  rewrite sw_trace_eq.
  destruct (Hsome (S i) (S j) Hi Hj) as [[h Hh] [t Ht]].
  rewrite Hh; simpl.
  destruct (Qlt_le_dec 0 h); [|exists []; rewrite app_nil_r; by split].
  rewrite Ht; simpl.
  destruct (t =? 1).
  { destruct (IHi j (acc ++ [(i, j)])) as (new & Hn & Hall); [lia|lia|].
    exists ((i, j) :: new). rewrite Hn, <- app_assoc. split; [done|].
    constructor; [simpl; lia|].
    eapply Forall_impl; [exact Hall|]. simpl. lia. }
  destruct (t =? 2).
  { destruct (IHi (S j) acc) as (new & Hn & Hall); [lia|lia|].
    exists new. split; [done|].
    eapply Forall_impl; [exact Hall|]. simpl. lia. }
  destruct (t =? 3).
  { destruct (IHj acc) as (new & Hn & Hall); [lia|lia|].
    exists new. split; [done|].
    eapply Forall_impl; [exact Hall|]. simpl. lia. }
  exists []. rewrite app_nil_r. by split.
Qed.

(** The aligner returns on every well-formed matrix, with an alignment
    inside the matrix. *)
Lemma smith_waterman_chunks_spec M go ge th :
  wf M →
  ∃ st al,
    sw_fill M go ge th = Some st ∧
    fill_inv M go ge th (S (nd_rows M)) 1 st ∧
    smith_waterman_chunks M go ge th = Some (max_score st, al, H_matrix st) ∧
    Forall (λ p, p.1 < nd_rows M ∧ p.2 < nd_cols M) al ∧
    (max_pos st = (0, 0) → al = []).
Proof.
  intros HM. destruct (sw_fill_inv M go ge th HM) as (st & Hfill & Hinv).
  unfold smith_waterman_chunks. rewrite Hfill; simpl.
  assert (Hpos : ∃ i j, max_pos st = (i, j) ∧ i ≤ nd_rows M ∧ j ≤ nd_cols M).
  { destruct (inv_max_pos _ _ _ _ _ _ _ Hinv) as [[_ ->]|(a & b & -> & ? & ? & _)].
    - exists 0, 0. split; [done|lia].
    - exists a, b. split; [done|lia]. }
  destruct Hpos as (i & j & Hp & Hi & Hj). rewrite Hp.
  destruct (sw_trace_spec (H_matrix st) (traceback st) (nd_rows M) (nd_cols M))
    with (i := i) (j := j) (acc := @nil (nat * nat)) as (new & Htr & Hall);
    [|done|done|].
  { intros a b Ha Hb.
    destruct (fill_inv_final _ _ _ _ _ a b Hinv Ha Hb) as (-> & -> & _).
    split; eauto. }
  rewrite Htr; simpl.
  exists st, (rev new). split_and!; try done.
  - apply Forall_rev. eapply Forall_impl; [exact Hall|]. simpl. lia.
  - intros Heq. rewrite Hp in Heq. injection Heq as -> ->.
    rewrite sw_trace_eq in Htr. simpl in Htr. by injection Htr as <-.
Qed.

(** ** The extractor on array values *)

Lemma mask_store (w : loc) al : ∀ W (σ : store),
  σ !! w = Some W →
  mask w al σ = (W' ← mask_array W al; Some (<[w := W']> σ)).
Proof.
  induction al as [|[i j] al IH]; intros W σ Hw; simpl.
  - by rewrite insert_id.
  - unfold store_setitem. rewrite Hw; simpl.
    destruct (setitem W i j 0%Q) as [W1|]; simpl; [|done].
    rewrite (IH W1 (<[w := W1]> σ)) by apply lookup_insert_eq.
    destruct (mask_array W1 al) as [W2|]; simpl; [|done].
    by rewrite insert_insert_eq.
Qed.

Lemma extract_loop_val (w : loc) go ge ms mc n : ∀ W acc (σ : store),
  σ !! w = Some W →
  extract_loop n w go ge ms mc acc σ =
    (r ← extract_val n W go ge ms mc acc; Some (r.1, <[w := r.2]> σ)).
Proof.
  induction n as [|n IH]; intros W acc σ Hw; simpl.
  - by rewrite insert_id.
  - rewrite Hw; simpl.
    destruct (smith_waterman_chunks W go ge SCORE_THRESHOLD)
      as [[[score al] Hm]|]; simpl; [|done].
    destruct (Qltb score ms || (Z.of_nat (length al) <? mc)%Z); simpl.
    { by rewrite insert_id. }
    rewrite (mask_store w al W σ Hw).
    destruct (mask_array W al) as [W1|]; simpl; [|done].
    rewrite (IH W1 _ (<[w := W1]> σ)) by apply lookup_insert_eq.
    destruct (extract_val n W1 go ge ms mc _) as [[res W2]|]; simpl; [|done].
    by rewrite insert_insert_eq.
Qed.

Lemma find_multiple_alignments_val (l : loc) go ge ms mc mx (σ : store) M :
  σ !! l = Some M →
  find_multiple_alignments l go ge ms mc mx σ =
    (r ← extract_val (Z.to_nat mx) M go ge ms mc [];
     Some (r.1, <[fresh (dom σ) := r.2]> σ)).
Proof.
  intros Hl. unfold find_multiple_alignments, ndarray_copy.
  rewrite Hl; simpl.
  rewrite (extract_loop_val _ go ge ms mc _ M) by apply lookup_insert_eq.
  destruct (extract_val _ M go ge ms mc []) as [[res W]|]; simpl; [|done].
  by rewrite insert_insert_eq.
Qed.

Lemma run_find_val M go ge ms mc mx :
  run_find M go ge ms mc mx = fst <$> extract_val (Z.to_nat mx) M go ge ms mc [].
Proof.
  unfold run_find.
  rewrite (find_multiple_alignments_val 0 go ge ms mc mx _ M)
    by apply lookup_singleton_eq.
  by destruct (extract_val _ M go ge ms mc []) as [[res W]|].
Qed.

(** Masking an alignment that lies inside the matrix. *)
Lemma mask_array_spec al : ∀ W,
  wf W → Forall (λ p, p.1 < nd_rows W ∧ p.2 < nd_cols W) al →
  ∃ W', mask_array W al = Some W' ∧ wf W' ∧ shape W' = shape W ∧
        ∀ i j, getitem W' i j =
               if decide ((i, j) ∈ al) then Some 0%Q else getitem W i j.
Proof.
  induction al as [|[i j] al IH]; intros W HW Hal; simpl.
  - exists W. by split_and!.
  - apply Forall_cons in Hal as [[Hi Hj] Hal]. simpl in Hi, Hj.
    destruct (setitem_is_Some W i j 0%Q HW Hi Hj) as [W1 HW1].
    rewrite HW1; simpl.
    destruct (setitem_shape _ _ _ _ _ HW1) as [Er Ec].
    destruct (IH W1) as (W' & Hm & HW' & Hsh & Hget).
    { by eapply setitem_wf. }
    { by rewrite Er, Ec. }
    exists W'. split_and!; try done.
    { rewrite Hsh. unfold shape. by rewrite Er, Ec. }
    intros i' j'. rewrite Hget.
    destruct (decide ((i', j') ∈ al)) as [Hin|Hnin].
    + rewrite decide_True; [done|]. by apply list_elem_of_further.
    + destruct (decide ((i', j') = (i, j))) as [Heq|Hne].
      * rewrite decide_True by (rewrite Heq; apply list_elem_of_here).
        injection Heq as -> ->. by eapply getitem_setitem_eq.
      * rewrite decide_False.
        -- by eapply getitem_setitem_ne.
        -- intros [?|?]%elem_of_cons; done.
Qed.

(** The extractor loop returns on every well-formed matrix. *)
Lemma extract_val_total go ge ms mc n : ∀ W acc,
  wf W → ∃ res W', extract_val n W go ge ms mc acc = Some (res, W').
Proof.
  induction n as [|n IH]; intros W acc HW; simpl; [by eauto|].
  destruct (smith_waterman_chunks_spec W go ge SCORE_THRESHOLD HW)
    as (st & al & _ & _ & -> & Hal & _); simpl.
  destruct (Qltb _ ms || _); [by eauto|].
  destruct (mask_array_spec al W HW Hal) as (W1 & -> & HW1 & _); simpl.
  by apply IH.
Qed.

(** ** The recurrence and the tie-break *)

Lemma wf_test_S : wf test_S.
Proof. split; [reflexivity|]. repeat constructor. Qed.

(** The scenario of the test: the diagonal, three steps of (cell - 0.5). *)
Example test_S_alignment :
  ∃ score H,
    smith_waterman_chunks test_S GAP_OPEN GAP_EXTEND SCORE_THRESHOLD
      = Some (score, [(0, 0); (1, 1); (2, 2)], H) ∧
    (score == 11 # 10)%Q.
Proof.
  do 2 eexists. split; [vm_compute; reflexivity|reflexivity].
Qed.

(** A cell of the finished tables and the cells it was computed from. *)
Lemma final_cell M go ge th st i j :
  wf M → fill_inv M go ge th (S (nd_rows M)) 1 st →
  i < nd_rows M → j < nd_cols M →
  ∃ s hd hu tu hl tl h,
    getitem M i j = Some s ∧
    getitem (H_matrix st) i j = Some hd ∧
    getitem (H_matrix st) i (S j) = Some hu ∧
    getitem (traceback st) i (S j) = Some tu ∧
    getitem (H_matrix st) (S i) j = Some hl ∧
    getitem (traceback st) (S i) j = Some tl ∧
    getitem (H_matrix st) (S i) (S j) = Some h ∧
    getitem (traceback st) (S i) (S j)
      = Some (argmax (cands go ge th s hd hu tu hl tl)) ∧
    cands go ge th s hd hu tu hl tl
      !! argmax (cands go ge th s hd hu tu hl tl) = Some h.
Proof.
  intros HM Hinv Hi Hj.
  destruct (getitem_is_Some M i j HM Hi Hj) as [s Hs].
  destruct (fill_inv_final M go ge th st i j Hinv) as (Hd & _ & _); [lia|lia|].
  destruct (fill_inv_final M go ge th st i (S j) Hinv) as (Hu & Htu & _); [lia|lia|].
  destruct (fill_inv_final M go ge th st (S i) j Hinv) as (Hl & Htl & _); [lia|lia|].
  destruct (fill_inv_final M go ge th st (S i) (S j) Hinv) as (Hh & Ht & _); [lia|lia|].
  rewrite table_step in Hh, Ht. cbv zeta in Hh, Ht. rewrite Hs in Hh, Ht.
  simpl in Hh, Ht.
  do 7 eexists. split_and!; try eassumption.
  destruct (argmax4_spec 0
              ((table M go ge th i j).1 + (s - th))
              ((table M go ge th i (S j)).1 +
               (if (table M go ge th i (S j)).2 =? 2 then ge else go))
              ((table M go ge th (S i) j).1 +
               (if (table M go ge th (S i) j).2 =? 3 then ge else go)))%Q
    as (v & Hv & _).
  unfold cands. by rewrite Hv.
Qed.

Lemma Qmax4_of_argmax (a b c d v : Q) :
  [a; b; c; d] !! argmax [a; b; c; d] = Some v →
  (v == Qmax a (Qmax b (Qmax c d)))%Q.
Proof.
  intros Hv.
  destruct (argmax4_spec a b c d) as (v' & Hv' & (Ha & Hb & Hc & Hd) & Hcase).
  rewrite Hv in Hv'. injection Hv' as <-.
  apply Qle_antisym.
  - destruct Hcase as [[_ ->]|[(_ & -> & _)|[(_ & -> & _)|(_ & -> & _)]]].
    + apply Q.le_max_l.
    + eapply Qle_trans; [|apply Q.le_max_r]. apply Q.le_max_l.
    + eapply Qle_trans; [|apply Q.le_max_r].
      eapply Qle_trans; [|apply Q.le_max_r]. apply Q.le_max_l.
    + eapply Qle_trans; [|apply Q.le_max_r].
      eapply Qle_trans; [|apply Q.le_max_r]. apply Q.le_max_r.
  - repeat apply Q.max_lub; done.
Qed.

(** C4: on every n1 x n2 matrix the fill loops finish with the score
    matrix H that the aligner returns, row 0 and column 0 of H are 0, and
    every cell with 1 <= i <= n1 and 1 <= j <= n2 holds
    max(0, H[i-1][j-1] + (S[i-1][j-1] - threshold),
           H[i-1][j] + (gapExtend if tag[i-1][j] is UP else gapOpen),
           H[i][j-1] + (gapExtend if tag[i][j-1] is LEFT else gapOpen))
    over the stored scores and tags. *)
Theorem score_matrix_recurrence M go ge th :
  wf M →
  ∃ st, sw_fill M go ge th = Some st ∧
    (∃ al, smith_waterman_chunks M go ge th
             = Some (max_score st, al, H_matrix st)) ∧
    (∀ i j, i ≤ nd_rows M → j ≤ nd_cols M → i = 0 ∨ j = 0 →
       getitem (H_matrix st) i j = Some 0%Q) ∧
    (∀ i j, 1 ≤ i ≤ nd_rows M → 1 ≤ j ≤ nd_cols M →
       ∃ s hd hu tu hl tl h,
         getitem M (i - 1) (j - 1) = Some s ∧
         getitem (H_matrix st) (i - 1) (j - 1) = Some hd ∧
         getitem (H_matrix st) (i - 1) j = Some hu ∧
         getitem (traceback st) (i - 1) j = Some tu ∧
         getitem (H_matrix st) i (j - 1) = Some hl ∧
         getitem (traceback st) i (j - 1) = Some tl ∧
         getitem (H_matrix st) i j = Some h ∧
         (h == Qmax 0 (Qmax (hd + (s - th))
                 (Qmax (hu + (if tu =? UP then ge else go))
                       (hl + (if tl =? LEFT then ge else go)))))%Q).
Proof.
  intros HM.
  destruct (smith_waterman_chunks_spec M go ge th HM)
    as (st & al & Hfill & Hinv & Hsw & _).
  exists st. split_and!; [done|by exists al|..].
  - intros i j Hi Hj H0.
    destruct (fill_inv_final M go ge th st i j Hinv Hi Hj) as (-> & _).
    destruct H0 as [-> | ->]; by rewrite ?table_row0, ?table_col0.
  - intros i j Hi Hj.
    destruct i as [|i]; [lia|]. destruct j as [|j]; [lia|].
    replace (S i - 1) with i by lia. replace (S j - 1) with j by lia.
    destruct (final_cell M go ge th st i j HM Hinv)
      as (s & hd & hu & tu & hl & tl & h & ? & ? & ? & ? & ? & ? & ? & _ & Hv);
      [lia|lia|].
    exists s, hd, hu, tu, hl, tl, h. split_and!; try done.
    by apply Qmax4_of_argmax.
Qed.

Lemma score_matrix_recurrence_witness :
  wf test_S ∧
  ∃ st, sw_fill test_S GAP_OPEN GAP_EXTEND SCORE_THRESHOLD = Some st ∧
        getitem (H_matrix st) 0 2 = Some 0%Q.
Proof.
  split; [apply wf_test_S|].
  destruct (score_matrix_recurrence test_S GAP_OPEN GAP_EXTEND SCORE_THRESHOLD
              wf_test_S) as (st & Hst & _ & H0 & _).
  exists st. split; [exact Hst|]. apply H0; simpl; lia.
Defined.

(** C5: in every cell the stored tag is the first, in the order STOP,
    DIAGONAL, UP, LEFT, of the candidates that equal the cell's maximum:
    the candidate of the stored tag is the stored score, no candidate
    exceeds it, and every candidate of an earlier tag is strictly below. *)
Theorem tie_break_precedence M go ge th :
  wf M →
  ∃ st, sw_fill M go ge th = Some st ∧
    ∀ i j, 1 ≤ i ≤ nd_rows M → 1 ≤ j ≤ nd_cols M →
      ∃ s hd hu tu hl tl h t,
        getitem M (i - 1) (j - 1) = Some s ∧
        getitem (H_matrix st) (i - 1) (j - 1) = Some hd ∧
        getitem (H_matrix st) (i - 1) j = Some hu ∧
        getitem (traceback st) (i - 1) j = Some tu ∧
        getitem (H_matrix st) i (j - 1) = Some hl ∧
        getitem (traceback st) i (j - 1) = Some tl ∧
        getitem (H_matrix st) i j = Some h ∧
        getitem (traceback st) i j = Some t ∧
        let scores := [0; hd + (s - th);
                       hu + (if tu =? UP then ge else go);
                       hl + (if tl =? LEFT then ge else go)]%Q in
        scores !! t = Some h ∧
        (∀ k c, scores !! k = Some c → (c <= h)%Q) ∧
        (∀ k c, k < t → scores !! k = Some c → (c < h)%Q).
Proof.
  intros HM. destruct (sw_fill_inv M go ge th HM) as (st & Hfill & Hinv).
  exists st. split; [done|].
  intros i j Hi Hj.
  destruct i as [|i]; [lia|]. destruct j as [|j]; [lia|].
  replace (S i - 1) with i by lia. replace (S j - 1) with j by lia.
  destruct (final_cell M go ge th st i j HM Hinv)
    as (s & hd & hu & tu & hl & tl & h & ? & ? & ? & ? & ? & ? & ? & Ht & Hv);
    [lia|lia|].
  exists s, hd, hu, tu, hl, tl, h. eexists. split_and!; try eassumption.
  unfold cands in *. cbv zeta. change UP with 2. change LEFT with 3.
  set (a := 0%Q) in *.
  set (b := (hd + (s - th))%Q) in *.
  set (c := (hu + (if tu =? 2 then ge else go))%Q) in *.
  set (d := (hl + (if tl =? 3 then ge else go))%Q) in *.
  destruct (argmax4_spec a b c d) as (v & Hv' & (Ha & Hb & Hc & Hd) & Hcase).
  rewrite Hv in Hv'. injection Hv' as <-.
  split_and!; [done|..].
  - intros k x Hk.
    destruct k as [|[|[|[|k]]]]; simpl in Hk; try done;
      by injection Hk as <-.
  - intros k x Hlt Hk.
    destruct Hcase as [[E _]|[(E & Eh & ?)|[(E & Eh & ? & ?)|(E & Eh & ? & ? & ?)]]];
      rewrite E in Hlt;
      destruct k as [|[|[|[|k]]]]; simpl in Hk; try lia;
      injection Hk as <-; by rewrite Eh.
Qed.

Lemma tie_break_precedence_witness :
  wf test_S ∧
  ∃ st, sw_fill test_S GAP_OPEN GAP_EXTEND SCORE_THRESHOLD = Some st ∧
        is_Some (getitem (traceback st) 1 1).
Proof.
  split; [apply wf_test_S|].
  destruct (tie_break_precedence test_S GAP_OPEN GAP_EXTEND SCORE_THRESHOLD
              wf_test_S) as (st & Hst & Hcell).
  exists st. split; [exact Hst|].
  destruct (Hcell 1 1) as (? & ? & ? & ? & ? & ? & ? & t & Hr);
    [simpl; lia|simpl; lia|].
  exists t. tauto.
Defined.

(** ** Matrices without a positive cell *)

Lemma table_zero M go ge th :
  wf M → (∀ i j s, getitem M i j = Some s → (s <= th)%Q) →
  (go < 0)%Q → (ge < 0)%Q →
  ∀ i j, i ≤ nd_rows M → j ≤ nd_cols M → table M go ge th i j = (0%Q, 0).
Proof.
  intros HM Hlow Hgo Hge. induction i as [|i IHi]; [done|].
  induction j as [|j IHj]; intros Hi Hj; [done|].
  rewrite table_step. cbv zeta.
  rewrite (IHi j), (IHi (S j)), IHj by lia. simpl.
  destruct (getitem_is_Some M i j HM) as [s Hs]; [lia|lia|].
  rewrite Hs. specialize (Hlow i j s Hs).
  unfold cands. simpl.
  destruct (argmax4_spec 0 (0 + (s - th)) (0 + go) (0 + go))%Q
    as (v & Hv & _ & Hcase).
  rewrite Hv; simpl.
  destruct Hcase as [[-> ->]|[(_ & _ & ?)|[(_ & _ & ? & ?)|(_ & _ & ? & ? & ?)]]];
    [done|lra..].
Qed.

(** C6: when every entry is at most the threshold and both gap penalties
    are negative, the aligner returns score 0 and the empty alignment. *)
Theorem all_below_threshold M go ge th :
  wf M → (∀ i j s, getitem M i j = Some s → (s <= th)%Q) →
  (go < 0)%Q → (ge < 0)%Q →
  ∃ H, smith_waterman_chunks M go ge th = Some (0%Q, [], H).
Proof.
  intros HM Hlow Hgo Hge.
  destruct (smith_waterman_chunks_spec M go ge th HM)
    as (st & al & _ & Hinv & Hsw & _ & Hnil).
  assert (max_score st = 0%Q ∧ max_pos st = (0, 0)) as [Hs Hp].
  { destruct (inv_max_pos _ _ _ _ _ _ _ Hinv)
      as [?|(a & b & _ & ? & ? & _ & Hm & Hpos)]; [done|].
    rewrite Hm, (table_zero M go ge th) in Hpos by (done || lia).
    simpl in Hpos. lra. }
  exists (H_matrix st). by rewrite Hsw, Hs, (Hnil Hp).
Qed.

Lemma all_below_threshold_witness :
  ∃ H, smith_waterman_chunks low_S GAP_OPEN GAP_EXTEND SCORE_THRESHOLD
       = Some (0%Q, [], H).
Proof.
  apply all_below_threshold.
  - apply wf_full.
  - intros i j s Hs.
    assert (s = (4 # 10)%Q) as ->.
    { destruct i as [|[|[|i]]]; destruct j as [|[|[|j]]];
        simpl in Hs; by inversion Hs. }
    unfold SCORE_THRESHOLD. lra.
  - unfold GAP_OPEN. lra.
  - unfold GAP_EXTEND. lra.
Defined.

(** ** Matrices without cells *)

Lemma for_loop_rows_of_nothing M go ge th xs st :
  nd_cols M = 0 →
  for_loop xs (λ i, for_loop (range 1 (nd_cols M + 1)) (sw_cell M go ge th i)) st
    = Some st.
Proof.
  intros ->. induction xs as [|x xs IH]; simpl; [done|exact IH].
Qed.

(** C8: on a 0 x k and on a k x 0 matrix, for every k, the aligner returns
    (it raises nothing) score 0 and the empty alignment. *)
Theorem degenerate_sizes (k : nat) go ge th :
  smith_waterman_chunks (NDArray 0 k []) go ge th
    = Some (0%Q, [], full 1 (k + 1) 0%Q) ∧
  smith_waterman_chunks (NDArray k 0 (replicate k [])) go ge th
    = Some (0%Q, [], full (k + 1) 1 0%Q).
Proof.
  split.
  - reflexivity.
  - unfold smith_waterman_chunks, sw_fill, shape.
    cbn [nd_rows].
    rewrite for_loop_rows_of_nothing by done.
    reflexivity.
Qed.

(** ** Bounds, frame and masking *)

(** C10: the aligner returns on every n1 x n2 matrix, every pair (i, j) of
    its alignment has i < n1 and j < n2 (and 0 <= i, 0 <= j, the indices
    being naturals), and the extractor, whose masking writes are checked,
    returns without an index error. *)
Theorem alignment_in_bounds M go ge th :
  wf M →
  (∃ score al H,
     smith_waterman_chunks M go ge th = Some (score, al, H) ∧
     ∀ i j, (i, j) ∈ al → i < nd_rows M ∧ j < nd_cols M) ∧
  (∀ (σ : store) l ms mc mx,
     σ !! l = Some M →
     is_Some (find_multiple_alignments l go ge ms mc mx σ)).
Proof.
  intros HM. split.
  - destruct (smith_waterman_chunks_spec M go ge th HM)
      as (st & al & _ & _ & Hsw & Hal & _).
    exists (max_score st), al, (H_matrix st). split; [done|].
    intros i j Hin. rewrite Forall_forall in Hal. apply (Hal (i, j) Hin).
  - intros σ l ms mc mx Hl.
    rewrite (find_multiple_alignments_val l go ge ms mc mx σ M Hl).
    destruct (extract_val_total go ge ms mc (Z.to_nat mx) M [] HM)
      as (res & W & ->).
    simpl. eauto.
Qed.

Lemma alignment_in_bounds_witness :
  ∃ score al H,
    smith_waterman_chunks test_S GAP_OPEN GAP_EXTEND SCORE_THRESHOLD
      = Some (score, al, H) ∧
    ∀ i j, (i, j) ∈ al → i < 3 ∧ j < 3.
Proof.
  exact (proj1 (alignment_in_bounds test_S GAP_OPEN GAP_EXTEND SCORE_THRESHOLD
                  wf_test_S)).
Defined.

(** C9: the extractor returns, and afterwards the caller's matrix, like
    every array object that existed before the call, holds the cells it
    held before: only the copy made by the call is written. *)
Theorem caller_matrix_preserved (σ : store) l M go ge ms mc mx :
  σ !! l = Some M → wf M →
  ∃ res (σ' : store),
    find_multiple_alignments l go ge ms mc mx σ = Some (res, σ') ∧
    σ' !! l = Some M ∧
    ∀ l', l' ∈ dom σ → σ' !! l' = σ !! l'.
Proof.
  intros Hl HM.
  rewrite (find_multiple_alignments_val l go ge ms mc mx σ M Hl).
  destruct (extract_val_total go ge ms mc (Z.to_nat mx) M [] HM)
    as (res & W & ->).
  simpl. eexists _, _. split; [reflexivity|].
  assert (Hfr : ∀ l', l' ∈ dom σ → fresh (dom σ) ≠ l').
  { intros l' Hin <-. by apply (is_fresh (dom σ)). }
  split.
  - rewrite lookup_insert_ne; [done|]. apply Hfr. apply elem_of_dom. eauto.
  - intros l' Hin. rewrite lookup_insert_ne; [done|]. by apply Hfr.
Qed.

Lemma caller_matrix_preserved_witness :
  ∃ res (σ' : store),
    find_multiple_alignments 0 GAP_OPEN GAP_EXTEND 1 3 10 {[ 0 := test_S ]}
      = Some (res, σ') ∧
    σ' !! 0 = Some test_S ∧
    ∀ l', l' ∈ dom ({[ 0 := test_S ]} : store) →
          σ' !! l' = ({[ 0 := test_S ]} : store) !! l'.
Proof.
  apply caller_matrix_preserved.
  - reflexivity.
  - apply wf_test_S.
Defined.

Lemma extract_val_acc go ge ms mc n : ∀ W acc,
  extract_val n W go ge ms mc acc =
    (r ← extract_val n W go ge ms mc []; Some (acc ++ r.1, r.2)).
Proof.
  induction n as [|n IH]; intros W acc; simpl.
  - by rewrite app_nil_r.
  - destruct (smith_waterman_chunks W go ge SCORE_THRESHOLD)
      as [[[score al] Hm]|]; simpl; [|done].
    destruct (Qltb score ms || _); simpl; [by rewrite app_nil_r|].
    destruct (mask_array W al) as [W1|]; simpl; [|done].
    rewrite (IH W1 (acc ++ [(score, al)])), (IH W1 [(score, al)]).
    destruct (extract_val n W1 go ge ms mc []) as [[r W2]|]; simpl; [|done].
    by rewrite <- app_assoc.
Qed.

(** C7: when the extractor with maxCount = 1 returns nothing, so does the
    extractor with maxCount = 2; when it returns one pair, zeroing the
    cells of that alignment in a copy of S and running the extractor with
    maxCount = 1 on the result returns (at most one pair) exactly what the
    extractor with maxCount = 2 on S returns after its first pair. *)
Theorem masking_idempotence M go ge ms mc :
  wf M →
  match run_find M go ge ms mc 1 with
  | Some [] => run_find M go ge ms mc 2 = Some []
  | Some [(s1, a1)] =>
      ∃ M' r2, mask_array M a1 = Some M' ∧
               run_find M' go ge ms mc 1 = Some r2 ∧ length r2 ≤ 1 ∧
               run_find M go ge ms mc 2 = Some ((s1, a1) :: r2)
  | _ => False
  end.
Proof.
  intros HM. rewrite !run_find_val.
  change (Z.to_nat 1) with 1. change (Z.to_nat 2) with 2.
  cbn [extract_val].
  destruct (smith_waterman_chunks_spec M go ge SCORE_THRESHOLD HM)
    as (st & al & _ & _ & -> & Hal & _); simpl.
  destruct (Qltb _ ms || _); simpl; [done|].
  destruct (mask_array_spec al M HM Hal) as (M' & HM' & HwM' & _).
  rewrite HM'; simpl.
  exists M'. rewrite run_find_val. change (Z.to_nat 1) with 1.
  cbn [extract_val].
  destruct (smith_waterman_chunks_spec M' go ge SCORE_THRESHOLD HwM')
    as (st' & al' & _ & _ & -> & Hal' & _); simpl.
  destruct (Qltb _ ms || _); simpl.
  { exists []. split_and!; try done; simpl; lia. }
  destruct (mask_array_spec al' M' HwM' Hal') as (M'' & -> & _); simpl.
  eexists. split_and!; try done; simpl; lia.
Qed.

Lemma masking_idempotence_witness :
  match run_find test_S GAP_OPEN GAP_EXTEND 1 3 1 with
  | Some [] => run_find test_S GAP_OPEN GAP_EXTEND 1 3 2 = Some []
  | Some [(s1, a1)] =>
      ∃ M' r2, mask_array test_S a1 = Some M' ∧
               run_find M' GAP_OPEN GAP_EXTEND 1 3 1 = Some r2 ∧ length r2 ≤ 1 ∧
               run_find test_S GAP_OPEN GAP_EXTEND 1 3 2 = Some ((s1, a1) :: r2)
  | _ => False
  end.
Proof. exact (masking_idempotence test_S GAP_OPEN GAP_EXTEND 1 3 wf_test_S). Defined.

(** ** Equal gap penalties: the score is monotone in the matrix *)

Lemma table_mono M' M g th :
  wf M → wf M' → cells_le M' M →
  ∀ i j, i ≤ nd_rows M → j ≤ nd_cols M →
    ((table M' g g th i j).1 <= (table M g g th i j).1)%Q.
Proof.
  intros HM HM' [Hsh Hle]. injection Hsh as Hr Hc.
  induction i as [|i IHi]; [intros; simpl; lra|].
  induction j as [|j IHj]; intros Hi Hj; [simpl; lra|].
  rewrite !table_step. cbv zeta.
  destruct (getitem_is_Some M i j HM) as [s Hs]; [lia|lia|].
  destruct (getitem_is_Some M' i j HM') as [s' Hs']; [lia|lia|].
  rewrite Hs, Hs'. unfold cands. simpl.
  specialize (Hle i j s s' Hs' Hs).
  assert (Hd := IHi j ltac:(lia) ltac:(lia)).
  assert (Hu := IHi (S j) ltac:(lia) ltac:(lia)).
  assert (Hl := IHj ltac:(lia) ltac:(lia)).
  assert (Hif : ∀ b : bool, (if b then g else g) = g) by (by intros []).
  rewrite !Hif.
  match goal with
  | |- (default _ ([?a'; ?b'; ?c'; ?d'] !! _) <= default _ ([?a; ?b; ?c; ?d] !! _))%Q =>
      destruct (argmax4_spec a' b' c' d') as (v' & -> & _ & Hcase');
      destruct (argmax4_spec a b c d) as (v & -> & (Ha & Hb & Hcc & Hdd) & _)
  end.
  simpl.
  destruct Hcase' as [[_ ->]|[(_ & -> & _)|[(_ & -> & _)|(_ & -> & _)]]]; lra.
Qed.

Lemma max_score_mono M' M g th st' st :
  wf M → wf M' → cells_le M' M →
  fill_inv M' g g th (S (nd_rows M')) 1 st' →
  fill_inv M g g th (S (nd_rows M)) 1 st →
  (max_score st' <= max_score st)%Q.
Proof.
  intros HM HM' Hle Hinv' Hinv.
  pose proof Hle as [Hsh _]. injection Hsh as Hr Hc.
  destruct (inv_max_pos _ _ _ _ _ _ _ Hinv')
    as [[-> _]|(a & b & _ & Ha & Hb & _ & -> & _)].
  - by eapply inv_max_nonneg.
  - eapply Qle_trans.
    + apply (table_mono M' M g th HM HM' Hle); lia.
    + apply (fill_inv_final M g g th st a b Hinv); lia.
Qed.

Lemma setitem_cells_le (M M' : ndarray Q) i j s v :
  getitem M i j = Some s → (s <= v)%Q → setitem M i j v = Some M' →
  cells_le M M'.
Proof.
  intros Hs Hsv Hset. split.
  - destruct (setitem_shape _ _ _ _ _ Hset) as [Er Ec].
    unfold shape. by rewrite Er, Ec.
  - intros a b x x' Hx' Hx.
    destruct (decide ((a, b) = (i, j))) as [Heq|Hne].
    + injection Heq as -> ->.
      rewrite (getitem_setitem_eq _ _ _ _ _ Hset) in Hx. simplify_eq. done.
    + rewrite (getitem_setitem_ne _ _ _ _ _ _ _ Hset Hne) in Hx.
      simplify_eq. lra.
Qed.

(** C2, amended: with gapExtend = gapOpen, raising one entry of the matrix
    never lowers the maximum score that the aligner returns. *)
Theorem single_entry_monotone_equal_gaps M g th i j s v M' :
  wf M → getitem M i j = Some s → (s <= v)%Q → setitem M i j v = Some M' →
  ∃ r r', smith_waterman_chunks M g g th = Some r ∧
          smith_waterman_chunks M' g g th = Some r' ∧
          (r.1.1 <= r'.1.1)%Q.
Proof.
  intros HM Hs Hsv Hset.
  assert (HM' := setitem_wf _ _ _ _ _ HM Hset).
  destruct (smith_waterman_chunks_spec M g g th HM)
    as (st & al & _ & Hinv & -> & _).
  destruct (smith_waterman_chunks_spec M' g g th HM')
    as (st' & al' & _ & Hinv' & -> & _).
  eexists _, _. split_and!; [reflexivity..|]. simpl.
  eapply (max_score_mono M M'); try done.
  by eapply setitem_cells_le.
Qed.

Lemma single_entry_monotone_equal_gaps_witness :
  ∃ r r', smith_waterman_chunks mono_S GAP_OPEN GAP_OPEN SCORE_THRESHOLD = Some r ∧
          smith_waterman_chunks mono_S' GAP_OPEN GAP_OPEN SCORE_THRESHOLD = Some r' ∧
          (r.1.1 <= r'.1.1)%Q.
Proof.
  apply (single_entry_monotone_equal_gaps mono_S GAP_OPEN SCORE_THRESHOLD
           1 1 (1 # 4)%Q (3 # 4)%Q mono_S').
  - split; [reflexivity|]. repeat constructor.
  - reflexivity.
  - lra.
  - reflexivity.
Defined.

(** C2 as stated fails: with gapOpen = -1/4, gapExtend = -1/8 and threshold
    1/2, raising the entry (1, 1) of [mono_S] from 1/4 to 3/4 lowers the
    maximum score from 5/8 to 1/2. *)
Lemma single_entry_increase_lowers_score :
  getitem mono_S 1 1 = Some (1 # 4)%Q ∧
  setitem mono_S 1 1 (3 # 4)%Q = Some mono_S' ∧
  ∃ s al H s' al' H',
    smith_waterman_chunks mono_S (-1 # 4) (-1 # 8) (1 # 2) = Some (s, al, H) ∧
    smith_waterman_chunks mono_S' (-1 # 4) (-1 # 8) (1 # 2) = Some (s', al', H') ∧
    (s == 5 # 8)%Q ∧ (s' == 1 # 2)%Q ∧ (s' < s)%Q.
Proof.
  split; [reflexivity|]. split; [reflexivity|].
  do 6 eexists.
  split; [vm_compute; reflexivity|].
  split; [vm_compute; reflexivity|].
  split_and!; reflexivity.
Qed.

(** ** The order of the extracted scores *)

Lemma non_increasing_snoc (l : list Q) x :
  non_increasing l → (∀ y, last l = Some y → (x <= y)%Q) →
  non_increasing (l ++ [x]).
Proof.
  intros Hl Hlast k a b Ha Hb.
  destruct (decide (k + 1 < length l)) as [Hlt|Hge].
  - rewrite lookup_app_l in Ha by lia. rewrite lookup_app_l in Hb by lia.
    by eapply Hl.
  - assert (k + 1 = length l) as Hk.
    { apply lookup_lt_Some in Hb. rewrite length_app in Hb. simpl in Hb. lia. }
    rewrite lookup_app_l in Ha by lia.
    rewrite lookup_app_r in Hb by lia.
    replace (k + 1 - length l) with 0 in Hb by lia. simpl in Hb.
    injection Hb as <-. apply Hlast.
    rewrite last_lookup. replace (pred (length l)) with k by lia. done.
Qed.

Lemma mask_array_le al W W' :
  wf W → Forall (λ p, p.1 < nd_rows W ∧ p.2 < nd_cols W) al →
  cells_nonneg W → mask_array W al = Some W' →
  wf W' ∧ cells_nonneg W' ∧ cells_le W' W.
Proof.
  intros HW Hal Hnn Hm.
  destruct (mask_array_spec al W HW Hal) as (W1 & Hm1 & HW1 & Hsh & Hget).
  rewrite Hm in Hm1. injection Hm1 as <-.
  split_and!; [done|..].
  - intros i j s. rewrite Hget. case_decide.
    + intros [= <-]. lra.
    + apply Hnn.
  - split; [done|]. intros i j s s'. rewrite Hget. case_decide.
    + intros [= <-] Hs. by eapply Hnn.
    + intros Hs' Hs. simplify_eq. lra.
Qed.

Lemma extract_val_sorted g ms mc n : ∀ W acc,
  wf W → cells_nonneg W → non_increasing acc.*1 →
  (∀ x st, last acc.*1 = Some x → sw_fill W g g SCORE_THRESHOLD = Some st →
           (max_score st <= x)%Q) →
  ∃ res W', extract_val n W g g ms mc acc = Some (res, W') ∧
            non_increasing res.*1.
Proof.
  induction n as [|n IH]; intros W acc HW Hnn Hacc Hlast; simpl; [by eauto|].
  destruct (smith_waterman_chunks_spec W g g SCORE_THRESHOLD HW)
    as (st & al & Hfill & Hinv & -> & Hal & _); simpl.
  destruct (Qltb _ ms || _); [by eauto|].
  destruct (mask_array_spec al W HW Hal) as (W1 & HW1 & _).
  rewrite HW1; simpl.
  destruct (mask_array_le al W W1 HW Hal Hnn HW1) as (Hwf1 & Hnn1 & Hle1).
  apply IH; try done.
  - rewrite fmap_app. simpl. apply non_increasing_snoc; [done|].
    intros y Hy. by eapply Hlast.
  - intros x st1 Hx Hst1. rewrite fmap_app in Hx. simpl in Hx.
    rewrite last_snoc in Hx. injection Hx as <-.
    destruct (sw_fill_inv W1 g g SCORE_THRESHOLD Hwf1) as (st1' & Hst1' & Hinv1).
    rewrite Hst1 in Hst1'. injection Hst1' as <-.
    by eapply (max_score_mono W1 W).
Qed.

(** C3, amended: with gapExtend = gapOpen and a matrix without negative
    entries, the scores of the pairs returned by the extractor, in the order
    of discovery, never increase. *)
Theorem scores_non_increasing_equal_gaps (σ : store) l M g ms mc mx :
  σ !! l = Some M → wf M → cells_nonneg M →
  ∃ res (σ' : store),
    find_multiple_alignments l g g ms mc mx σ = Some (res, σ') ∧
    non_increasing res.*1.
Proof.
  intros Hl HM Hnn.
  rewrite (find_multiple_alignments_val l g g ms mc mx σ M Hl).
  destruct (extract_val_sorted g ms mc (Z.to_nat mx) M [] HM Hnn)
    as (res & W & -> & Hres).
  - intros k x y Hx. done.
  - intros x st Hx. done.
  - simpl. eauto.
Qed.

Lemma cells_nonneg_order_S : cells_nonneg order_S.
Proof.
  intros i j s Hs.
  destruct i as [|[|[|i]]]; simpl in Hs; try done;
    destruct j as [|[|[|[|[|j]]]]]; simpl in Hs; try done;
    injection Hs as <-; done.
Qed.

Lemma scores_non_increasing_equal_gaps_witness :
  ∃ res (σ' : store),
    find_multiple_alignments 0 GAP_OPEN GAP_OPEN 1 3 10 {[ 0 := order_S ]}
      = Some (res, σ') ∧
    non_increasing res.*1.
Proof.
  apply (scores_non_increasing_equal_gaps _ 0 order_S).
  - reflexivity.
  - split; [reflexivity|]. repeat constructor.
  - apply cells_nonneg_order_S.
Defined.

(** C3 as stated fails: on [order_S] with gapOpen = -1/4, gapExtend = -1/8
    and the default minScore = 1, minLength = 3 and maxCount = 10 the
    extractor returns two pairs, the first of score 1 and the second of
    score 9/8. *)
Lemma second_score_exceeds_first :
  ∃ s1 a1 s2 a2,
    run_find order_S (-1 # 4) (-1 # 8) 1 3 10 = Some [(s1, a1); (s2, a2)] ∧
    (s1 == 1)%Q ∧ (s2 == 9 # 8)%Q ∧ (s1 < s2)%Q.
Proof.
  do 4 eexists. split.
  - rewrite run_find_val. vm_compute. reflexivity.
  - split_and!; reflexivity.
Qed.

(** The amendment needs the matrix without negative entries: with
    gapOpen = gapExtend = -1 the second score on [order_neg_S] is 11/2 after
    a first score of 9/2, through the masked cell (2, 1) that held -1. *)
Lemma negative_entry_breaks_order :
  ∃ s1 a1 s2 a2,
    run_find order_neg_S (-1) (-1) 1 3 10 = Some [(s1, a1); (s2, a2)] ∧
    (s1 == 9 # 2)%Q ∧ (s2 == 11 # 2)%Q.
Proof.
  do 4 eexists. split.
  - rewrite run_find_val. vm_compute. reflexivity.
  - split; reflexivity.
Qed.

(** ** Overlapping alignments *)

(** C1 fails on the code: on [overlap_S] with gapOpen = gapExtend = -1/2
    and the default minScore = 1, minLength = 3 and maxCount = 10 the
    extractor returns two alignments that both contain the pair (2, 1). *)
Theorem second_alignment_reuses_masked_cell :
  ∃ s1 s2,
    run_find overlap_S (-1 # 2) (-1 # 2) 1 3 10
      = Some [(s1, [(1, 0); (2, 1); (3, 2)]); (s2, [(0, 0); (2, 1); (4, 2)])] ∧
    (s1 == 9)%Q ∧ (s2 == 9 # 2)%Q.
Proof.
  do 2 eexists. split.
  - rewrite run_find_val. vm_compute. reflexivity.
  - split; reflexivity.
Qed.

(** The same on a matrix of cosine-range entries, with
    gapOpen = gapExtend = -3/8: both alignments contain the pair (4, 3). *)
Lemma cosine_range_alignments_overlap :
  ∃ s1 a1 s2 a2,
    run_find overlap_cosine_S (-3 # 8) (-3 # 8) 1 3 10
      = Some [(s1, a1); (s2, a2)] ∧
    (4, 3) ∈ a1 ∧ (4, 3) ∈ a2.
Proof.
  do 4 eexists. split.
  - rewrite run_find_val. vm_compute. reflexivity.
  - split; apply list_elem_of_In; simpl; tauto.
Qed.

(** ** The shape of an alignment *)

(** The cases of a cell of [table]: its tag, its score and how the score
    compares with the candidates. *)
Lemma table_cases M go ge th i j :
  let s := default 0%Q (getitem M i j) in
  let b := ((table M go ge th i j).1 + (s - th))%Q in
  let c := ((table M go ge th i (S j)).1 +
            (if (table M go ge th i (S j)).2 =? 2 then ge else go))%Q in
  let d := ((table M go ge th (S i) j).1 +
            (if (table M go ge th (S i) j).2 =? 3 then ge else go))%Q in
  ∃ v t, table M go ge th (S i) (S j) = (v, t) ∧
    (0 <= v ∧ b <= v ∧ c <= v ∧ d <= v)%Q ∧
    ((t = 0 ∧ v = 0%Q) ∨
     (t = 1 ∧ v = b ∧ (0 < b)%Q) ∨
     (t = 2 ∧ v = c ∧ (0 < c ∧ b < c)%Q) ∨
     (t = 3 ∧ v = d ∧ (0 < d ∧ b < d ∧ c < d)%Q)).
Proof.
  intros s b c d. rewrite table_step. cbv zeta. unfold cands.
  fold s. fold b. fold c. fold d.
  destruct (argmax4_spec 0 b c d) as (v & Hv & Hle & Hcase).
  rewrite Hv. simpl. exists v, (argmax [0%Q; b; c; d]).
  split; [done|]. split; [done|]. exact Hcase.
Qed.

Lemma table_nonneg M go ge th i j : (0 <= (table M go ge th i j).1)%Q.
Proof.
  destruct i as [|i]; [rewrite table_row0; simpl; lra|].
  destruct j as [|j]; [rewrite table_col0; simpl; lra|].
  destruct (table_cases M go ge th i j) as (v & t & -> & Hle & _).
  simpl. tauto.
Qed.

Lemma path_gain_app M th l1 l2 :
  (path_gain M th (l1 ++ l2) == path_gain M th l1 + path_gain M th l2)%Q.
Proof.
  induction l1 as [|p l1 IH]; simpl; [lra|].
  unfold path_gain in *. simpl. rewrite IH. lra.
Qed.

Lemma path_gain_rev M th l : (path_gain M th (rev l) == path_gain M th l)%Q.
Proof.
  induction l as [|p l IH]; simpl; [reflexivity|].
  rewrite path_gain_app, IH. unfold path_gain. simpl. lra.
Qed.

(** The traceback from a cell of the finished tables. *)
Lemma sw_trace_table M go ge th st :
  wf M → fill_inv M go ge th (S (nd_rows M)) 1 st →
  ∀ i j acc, i ≤ nd_rows M → j ≤ nd_cols M →
  ∃ new,
    sw_trace (H_matrix st) (traceback st) i j acc = Some (acc ++ new) ∧
    StronglySorted (flip pair_lt) new ∧
    Forall (λ p, p.1 < i ∧ p.2 < j ∧
                 (table M go ge th (S p.1) (S p.2)).2 = 1 ∧
                 (0 < (table M go ge th (S p.1) (S p.2)).1)%Q) new ∧
    ((go <= 0)%Q → (ge <= 0)%Q →
       ((table M go ge th i j).1 <= path_gain M th new)%Q) ∧
    ((0 < (table M go ge th i j).1)%Q → (table M go ge th i j).2 = 1 →
       ∃ rest, new = (i - 1, j - 1) :: rest).
Proof.
  intros HM Hinv.
  assert (Hnil : ∀ i j acc, ¬ (0 < (table M go ge th i j).1)%Q →
    ∃ new, Some acc = Some (acc ++ new) ∧
      StronglySorted (flip pair_lt) new ∧
      Forall (λ p, p.1 < i ∧ p.2 < j ∧
                   (table M go ge th (S p.1) (S p.2)).2 = 1 ∧
                   (0 < (table M go ge th (S p.1) (S p.2)).1)%Q) new ∧
      ((go <= 0)%Q → (ge <= 0)%Q →
         ((table M go ge th i j).1 <= path_gain M th new)%Q) ∧
      ((0 < (table M go ge th i j).1)%Q → (table M go ge th i j).2 = 1 →
         ∃ rest, new = (i - 1, j - 1) :: rest)).
  { intros i j acc Hn. apply Qnot_lt_le in Hn. exists []. rewrite app_nil_r.
    split_and!.
    - done.
    - apply SSorted_nil.
    - apply Forall_nil_2.
    - intros _ _. exact Hn.
    - intros Hp. lra. }
  induction i as [|i IHi].
  { intros j acc _ _. rewrite sw_trace_eq. apply Hnil.
    rewrite table_row0. simpl. intros ?. lra. }
  induction j as [|j IHj]; intros acc Hi Hj.
  { rewrite sw_trace_eq. apply Hnil.
    rewrite table_col0. simpl. intros ?. lra. }
  rewrite sw_trace_eq.
  destruct (fill_inv_final M go ge th st (S i) (S j) Hinv Hi Hj) as (Hh & Ht & _).
  rewrite Hh; cbn [mbind option_bind].
  destruct (Qlt_le_dec 0 (table M go ge th (S i) (S j)).1) as [Hpos|Hnpos];
    [|by apply Hnil, Qle_not_lt].
  rewrite Ht; cbn [mbind option_bind].
  destruct (table_cases M go ge th i j) as (v & t & Etab & Hle & Hcase).
  rewrite Etab in Hpos |- *. cbn [fst snd] in Hpos |- *.
  destruct Hcase as [[-> ->]|[(-> & Ev & Hb)|[(-> & Ev & Hc)|(-> & Ev & Hd)]]];
    cbn [Nat.eqb].
  - lra.
  - destruct (IHi j (acc ++ [(i, j)])) as (new & Hn & Hs & Hall & Hg & _);
      [lia|lia|].
    exists ((i, j) :: new). rewrite Hn, <- app_assoc. split_and!; try done.
    + constructor; [done|].
      eapply Forall_impl; [exact Hall|]. intros p (? & ? & _).
      unfold flip, pair_lt. cbn [fst snd]. lia.
    + constructor.
      * cbn [fst snd]. rewrite Etab. cbn [fst snd]. split_and!; try lia; done.
      * eapply Forall_impl; [exact Hall|]. cbn beta. intros p (? & ? & ?).
        split_and!; try lia; tauto.
    + intros Hgo Hge. specialize (Hg Hgo Hge). unfold path_gain in *.
      cbn [foldr fst snd]. rewrite Ev. lra.
    + intros _ _. exists new. by replace (S i - 1) with i by lia;
        replace (S j - 1) with j by lia.
  - destruct (IHi (S j) acc) as (new & Hn & Hs & Hall & Hg & _); [lia|lia|].
    exists new. split_and!; try done.
    + eapply Forall_impl; [exact Hall|]. cbn beta. intros p (? & ? & ?).
      split_and!; try lia; tauto.
    + intros Hgo Hge. specialize (Hg Hgo Hge). rewrite Ev.
      destruct (_ =? 2); lra.
  - destruct (IHj acc) as (new & Hn & Hs & Hall & Hg & _); [lia|lia|].
    exists new. split_and!; try done.
    + eapply Forall_impl; [exact Hall|]. cbn beta. intros p (? & ? & ?).
      split_and!; try lia; tauto.
    + intros Hgo Hge. specialize (Hg Hgo Hge). rewrite Ev.
      destruct (_ =? 3); lra.
Qed.

Lemma elem_of_rev {A} (x : A) l : x ∈ rev l ↔ x ∈ l.
Proof. rewrite !list_elem_of_In. symmetry. apply in_rev. Qed.

Lemma StronglySorted_flip_rev {A} (R : relation A) l :
  StronglySorted (flip R) l → StronglySorted R (rev l).
Proof.
  induction 1 as [|x l Hl IH Hx]; simpl; [constructor|].
  apply StronglySorted_app_2; [|done|repeat constructor].
  intros y z Hy Hz. apply list_elem_of_singleton in Hz as ->.
  rewrite Forall_forall in Hx. exact (Hx y (proj1 (elem_of_rev y l) Hy)).
Qed.

Lemma pair_lt_sorted_NoDup l :
  StronglySorted pair_lt l → NoDup l ∧ NoDup l.*1 ∧ NoDup l.*2.
Proof.
  induction 1 as [|x l Hl (IH & IH1 & IH2) Hx]; simpl.
  { split_and!; constructor. }
  rewrite Forall_forall in Hx.
  split_and!; (constructor; [|done]).
  - intros Hin. specialize (Hx x Hin). unfold pair_lt in Hx. lia.
  - intros (y & Ey & Hy)%list_elem_of_fmap. specialize (Hx y Hy).
    unfold pair_lt in Hx. lia.
  - intros (y & Ey & Hy)%list_elem_of_fmap. specialize (Hx y Hy).
    unfold pair_lt in Hx. lia.
Qed.

(** The aligner's result together with the finished tables and the path of
    the traceback. *)
Lemma sw_path_spec M go ge th :
  wf M →
  ∃ st p q new,
    sw_fill M go ge th = Some st ∧
    fill_inv M go ge th (S (nd_rows M)) 1 st ∧
    max_pos st = (p, q) ∧ p ≤ nd_rows M ∧ q ≤ nd_cols M ∧
    max_score st = (table M go ge th p q).1 ∧
    smith_waterman_chunks M go ge th
      = Some (max_score st, rev new, H_matrix st) ∧
    StronglySorted (flip pair_lt) new ∧
    Forall (λ x, x.1 < p ∧ x.2 < q ∧
                 (table M go ge th (S x.1) (S x.2)).2 = 1 ∧
                 (0 < (table M go ge th (S x.1) (S x.2)).1)%Q) new ∧
    ((go <= 0)%Q → (ge <= 0)%Q →
       ((table M go ge th p q).1 <= path_gain M th new)%Q) ∧
    ((0 < (table M go ge th p q).1)%Q → (table M go ge th p q).2 = 1 →
       ∃ rest, new = (p - 1, q - 1) :: rest).
Proof.
  intros HM. destruct (sw_fill_inv M go ge th HM) as (st & Hfill & Hinv).
  assert (Hpos : ∃ p q, max_pos st = (p, q) ∧ p ≤ nd_rows M ∧ q ≤ nd_cols M ∧
                        max_score st = (table M go ge th p q).1).
  { destruct (inv_max_pos _ _ _ _ _ _ _ Hinv)
      as [[-> ->]|(a & b & -> & ? & ? & _ & -> & _)].
    - exists 0, 0. split_and!; try done; lia.
    - exists a, b. split_and!; try done; lia. }
  destruct Hpos as (p & q & Hp & Hpn & Hqn & Hms).
  destruct (sw_trace_table M go ge th st HM Hinv p q [] Hpn Hqn)
    as (new & Htr & Hs & Hall & Hg & Hd).
  exists st, p, q, new. split_and!; try done.
  unfold smith_waterman_chunks. rewrite Hfill. cbn [mbind option_bind].
  rewrite Hp, Htr. reflexivity.
Qed.

(** X1: the pairs of the returned alignment grow strictly in both indices,
    so no pair and no index of either sequence occurs twice. *)
Theorem alignment_strictly_increasing M go ge th :
  wf M →
  ∃ score al H,
    smith_waterman_chunks M go ge th = Some (score, al, H) ∧
    StronglySorted pair_lt al ∧ NoDup al ∧ NoDup al.*1 ∧ NoDup al.*2.
Proof.
  intros HM.
  destruct (sw_path_spec M go ge th HM)
    as (st & p & q & new & _ & _ & _ & _ & _ & _ & Hsw & Hs & _).
  exists (max_score st), (rev new), (H_matrix st).
  assert (Hsorted : StronglySorted pair_lt (rev new))
    by by apply StronglySorted_flip_rev.
  split; [done|]. split; [done|]. by apply pair_lt_sorted_NoDup.
Qed.

Lemma alignment_strictly_increasing_witness :
  ∃ score al H,
    smith_waterman_chunks test_S GAP_OPEN GAP_EXTEND SCORE_THRESHOLD
      = Some (score, al, H) ∧
    StronglySorted pair_lt al ∧ NoDup al ∧ NoDup al.*1 ∧ NoDup al.*2.
Proof.
  exact (alignment_strictly_increasing test_S GAP_OPEN GAP_EXTEND
           SCORE_THRESHOLD wf_test_S).
Defined.

(** ** The position of the maximum *)

Lemma sw_cell_max M go ge th i j st st' :
  wf M → 1 ≤ i ≤ nd_rows M → 1 ≤ j ≤ nd_cols M →
  fill_inv M go ge th i j st →
  sw_cell M go ge th i j st = Some st' →
  ((max_score st < (table M go ge th i j).1)%Q ∧
   max_score st' = (table M go ge th i j).1 ∧ max_pos st' = (i, j)) ∨
  (((table M go ge th i j).1 <= max_score st)%Q ∧
   max_score st' = max_score st ∧ max_pos st' = max_pos st).
Proof.
  intros HM Hi Hj Hinv Hcell.
  destruct (sw_cell_inv M go ge th i j st HM Hi Hj Hinv) as (st'' & E & Hinv').
  rewrite E in Hcell. injection Hcell as ->.
  destruct (inv_cells _ _ _ _ _ _ _ Hinv' i j) as [Hh _];
    [lia|lia|right; right; right; lia|].
  unfold sw_cell in E.
  repeat match type of E with
         | (mbind _ ?x = Some _) =>
             destruct x eqn:?; cbn [mbind option_bind] in E; [|discriminate]
         end.
  destruct (Qlt_le_dec (max_score st) _) as [Hlt|Hge]; injection E as <-;
    cbn [H_matrix max_score max_pos] in *;
    match goal with
    | H1 : getitem ?a i j = Some ?x, H2 : getitem ?a i j = Some ?y |- _ =>
        rewrite H1 in H2; injection H2 as <-
    end.
  - left. done.
  - right. done.
Qed.

Lemma sw_fill_first_max M go ge th :
  wf M →
  ∃ st, sw_fill M go ge th = Some st ∧
        fill_inv M go ge th (S (nd_rows M)) 1 st ∧
        first_max M go ge th st.
Proof.
  intros HM. unfold sw_fill, shape, range.
  replace (nd_rows M + 1 - 1) with (nd_rows M) by lia.
  replace (nd_cols M + 1 - 1) with (nd_cols M) by lia.
  destruct (for_loop_seq_inv
              (λ i st, fill_inv M go ge th i 1 st ∧ first_max M go ge th st)
              (λ i, for_loop (seq 1 (nd_cols M)) (sw_cell M go ge th i))
              (nd_rows M) 1
              (SwState (full (nd_rows M + 1) (nd_cols M + 1) 0%Q)
                       (full (nd_rows M + 1) (nd_cols M + 1) 0) 0%Q (0, 0)))
    as (st & Hst & Hinv & Hfirst).
  - split; [apply fill_inv_init|].
    intros p q a b [= <- <-] _ _ Hf. unfold filled in Hf. lia.
  - intros i st Hi [Hinv Hfirst].
    destruct (for_loop_seq_inv
                (λ j st, fill_inv M go ge th i j st ∧ first_max M go ge th st)
                (sw_cell M go ge th i) (nd_cols M) 1 st)
      as (st' & Hrow & Hinv' & Hfirst'); [done| |].
    + intros j st1 Hj [Hinv1 Hfirst1].
      destruct (sw_cell_inv M go ge th i j st1 HM) as (st2 & E & Hinv2);
        [lia|lia|done|].
      exists st2. split; [done|]. split; [done|].
      destruct (sw_cell_max M go ge th i j st1 st2 HM) as
        [(Hlt & Hs & Hp)|(Hle & Hs & Hp)]; [lia|lia|done|done|..].
      * intros p q a b Hpq Ha Hb Hf. rewrite Hp in Hpq. injection Hpq as <- <-.
        rewrite Hs.
        assert (Hab := inv_max_ub _ _ _ _ _ _ _ Hinv1 a b).
        assert (a ≤ nd_rows M) by (unfold filled in Hf; lia).
        specialize (Hab ltac:(lia) ltac:(lia) Hf). lra.
      * intros p q a b Hpq Ha Hb Hf. rewrite Hp in Hpq. rewrite Hs.
        by eapply Hfirst1.
    + exists st'. split; [done|]. split; [|done]. by apply fill_inv_next_row.
  - exists st. done.
Qed.

(** ** The score, the score matrix and the alignment *)

(** X2: every pair (i, j) of the returned alignment is a match step of the
    returned score matrix: H[i+1][j+1] is positive and equals
    H[i][j] + (S[i][j] - threshold). *)
Theorem aligned_pairs_are_match_steps M go ge th :
  wf M →
  ∃ score al H,
    smith_waterman_chunks M go ge th = Some (score, al, H) ∧
    ∀ i j, (i, j) ∈ al →
      ∃ s hd, getitem M i j = Some s ∧ getitem H i j = Some hd ∧
              getitem H (S i) (S j) = Some (hd + (s - th))%Q ∧
              (0 < hd + (s - th))%Q.
Proof.
  intros HM.
  destruct (sw_path_spec M go ge th HM)
    as (st & p & q & new & _ & Hinv & _ & Hp & Hq & _ & Hsw & _ & Hall & _).
  exists (max_score st), (rev new), (H_matrix st). split; [done|].
  intros i j Hin. apply (proj1 (elem_of_rev _ _)) in Hin.
  rewrite Forall_forall in Hall.
  destruct (Hall (i, j) Hin) as (Hi & Hj & Htag & Hpos).
  cbn [fst snd] in Hi, Hj, Htag, Hpos.
  destruct (getitem_is_Some M i j HM) as [s Hs]; [lia|lia|].
  destruct (fill_inv_final M go ge th st i j Hinv) as (Hd & _); [lia|lia|].
  destruct (fill_inv_final M go ge th st (S i) (S j) Hinv) as (Hh & _);
    [lia|lia|].
  exists s, (table M go ge th i j).1. split_and!; try done.
  - rewrite Hh. f_equal.
    destruct (table_cases M go ge th i j) as (v & t & Etab & _ & Hcase).
    rewrite Etab in Htag |- *. cbn [fst snd] in *. rewrite Hs in Hcase.
    destruct Hcase as [[? ?]|[(_ & -> & _)|[(? & _)|(? & _)]]];
      [lia|done|lia|lia].
  - destruct (table_cases M go ge th i j) as (v & t & Etab & _ & Hcase).
    rewrite Etab in Htag, Hpos. cbn [fst snd] in *. rewrite Hs in Hcase.
    destruct Hcase as [[? ?]|[(_ & -> & ?)|[(? & _)|(? & _)]]];
      [lia|done|lia|lia].
Qed.

Lemma aligned_pairs_are_match_steps_witness :
  ∃ score al H,
    smith_waterman_chunks test_S GAP_OPEN GAP_EXTEND SCORE_THRESHOLD
      = Some (score, al, H) ∧
    ∀ i j, (i, j) ∈ al →
      ∃ s hd, getitem test_S i j = Some s ∧ getitem H i j = Some hd ∧
              getitem H (S i) (S j) = Some (hd + (s - SCORE_THRESHOLD))%Q ∧
              (0 < hd + (s - SCORE_THRESHOLD))%Q.
Proof.
  exact (aligned_pairs_are_match_steps test_S GAP_OPEN GAP_EXTEND
           SCORE_THRESHOLD wf_test_S).
Defined.

(** X3: when neither gap penalty is positive, the returned score is at most
    the sum of S[i][j] - threshold over the pairs of the returned
    alignment. *)
Theorem score_at_most_path_gain M go ge th :
  wf M → (go <= 0)%Q → (ge <= 0)%Q →
  ∃ score al H,
    smith_waterman_chunks M go ge th = Some (score, al, H) ∧
    (score <= path_gain M th al)%Q.
Proof.
  intros HM Hgo Hge.
  destruct (sw_path_spec M go ge th HM)
    as (st & p & q & new & _ & _ & _ & _ & _ & Hms & Hsw & _ & _ & Hg & _).
  exists (max_score st), (rev new), (H_matrix st). split; [done|].
  rewrite path_gain_rev, Hms. by apply Hg.
Qed.

Lemma score_at_most_path_gain_witness :
  ∃ score al H,
    smith_waterman_chunks test_S GAP_OPEN GAP_EXTEND SCORE_THRESHOLD
      = Some (score, al, H) ∧
    (score <= path_gain test_S SCORE_THRESHOLD al)%Q.
Proof.
  apply (score_at_most_path_gain test_S GAP_OPEN GAP_EXTEND SCORE_THRESHOLD
           wf_test_S).
  - unfold GAP_OPEN. lra.
  - unfold GAP_EXTEND. lra.
Defined.

(** X4: the returned score matrix has shape (n1 + 1, n2 + 1), each of its
    cells lies between 0 and the returned score, and a positive score is
    the value of one of its cells. *)
Theorem score_matrix_range M go ge th :
  wf M →
  ∃ score al H,
    smith_waterman_chunks M go ge th = Some (score, al, H) ∧
    wf H ∧ shape H = (nd_rows M + 1, nd_cols M + 1) ∧
    (∀ i j, i ≤ nd_rows M → j ≤ nd_cols M →
       ∃ h, getitem H i j = Some h ∧ (0 <= h <= score)%Q) ∧
    (score = 0%Q ∨
     ∃ i j, 1 ≤ i ≤ nd_rows M ∧ 1 ≤ j ≤ nd_cols M ∧
            getitem H i j = Some score ∧ (0 < score)%Q).
Proof.
  intros HM.
  destruct (smith_waterman_chunks_spec M go ge th HM)
    as (st & al & _ & Hinv & Hsw & _).
  exists (max_score st), al, (H_matrix st). split_and!; [done|..].
  - by eapply inv_wf_H.
  - by eapply inv_shape_H.
  - intros i j Hi Hj.
    destruct (fill_inv_final M go ge th st i j Hinv Hi Hj) as (Hh & _ & Hub).
    eexists. split; [exact Hh|]. split; [apply table_nonneg|done].
  - destruct (inv_max_pos _ _ _ _ _ _ _ Hinv)
      as [[? _]|(a & b & _ & Ha & Hb & _ & Hm & Hpos)]; [by left|].
    right. exists a, b. split_and!; try lia; try done.
    destruct (fill_inv_final M go ge th st a b Hinv) as (Hh & _); [lia|lia|].
    by rewrite Hm.
Qed.

Lemma score_matrix_range_witness :
  ∃ score al H,
    smith_waterman_chunks test_S GAP_OPEN GAP_EXTEND SCORE_THRESHOLD
      = Some (score, al, H) ∧
    wf H ∧ shape H = (4, 4).
Proof.
  destruct (score_matrix_range test_S GAP_OPEN GAP_EXTEND SCORE_THRESHOLD
              wf_test_S) as (score & al & H & Hsw & HwH & Hsh & _).
  exists score, al, H. split; [exact Hsw|]. split; [exact HwH|exact Hsh].
Defined.

(** X5: with negative gap penalties the alignment is empty exactly when the
    score is 0; otherwise its last pair (i, j) is the cell of the maximum:
    H[i+1][j+1] is the score and every cell before it, in row-major order,
    holds less (on ties the first maximum ends the alignment). *)
Theorem alignment_ends_at_first_maximum M go ge th :
  wf M → (go < 0)%Q → (ge < 0)%Q →
  ∃ score al H,
    smith_waterman_chunks M go ge th = Some (score, al, H) ∧
    ((score = 0%Q ∧ al = []) ∨
     ((0 < score)%Q ∧
      ∃ al' i j, al = al' ++ [(i, j)] ∧
        getitem H (S i) (S j) = Some score ∧
        ∀ a b h, 1 ≤ a → 1 ≤ b ≤ nd_cols M →
                 a < S i ∨ (a = S i ∧ b < S j) →
                 getitem H a b = Some h → (h < score)%Q)).
Proof.
  intros HM Hgo Hge.
  destruct (sw_path_spec M go ge th HM)
    as (st & p & q & new & Hfill & Hinv & Hpq & Hp & Hq & Hms & Hsw & _ &
        Hall & _ & Hhead).
  destruct (sw_fill_first_max M go ge th HM) as (st' & Hfill' & _ & Hfirst).
  rewrite Hfill in Hfill'. injection Hfill' as <-.
  exists (max_score st), (rev new), (H_matrix st). split; [done|].
  destruct (inv_max_pos _ _ _ _ _ _ _ Hinv)
    as [[Hz Hp0]|(a & b & Hab & Ha & Hb & _ & Hm & Hpos)].
  - left. split; [done|]. rewrite Hpq in Hp0. injection Hp0 as -> ->.
    destruct new as [|x new]; [done|].
    apply Forall_cons in Hall as [(? & _) _]. lia.
  - right. split; [done|].
    rewrite Hpq in Hab. injection Hab as <- <-.
    destruct p as [|p]; [lia|]. destruct q as [|q]; [lia|].
    destruct (table_cases M go ge th p q) as (v & t & Etab & Hle & Hcase).
    destruct (fill_inv_final M go ge th st p (S q) Hinv) as (_ & _ & Hu);
      [lia|lia|].
    destruct (fill_inv_final M go ge th st (S p) q Hinv) as (_ & _ & Hl);
      [lia|lia|].
    rewrite Hm, Etab in Hu, Hl, Hpos. cbn [fst snd] in Hu, Hl, Hpos.
    assert (t = 1) as ->.
    { destruct Hcase as [[_ ->]|[(-> & _)|[(_ & Ev & _)|(_ & Ev & _)]]];
        [lra|done|..].
      - exfalso. rewrite Ev in Hu. destruct (_ =? 2); lra.
      - exfalso. rewrite Ev in Hl. destruct (_ =? 3); lra. }
    destruct Hhead as (rest & ->).
    { rewrite Etab. done. }
    { rewrite Etab. done. }
    replace (S p - 1) with p by lia. replace (S q - 1) with q by lia.
    exists (rev rest), p, q. split_and!.
    + done.
    + destruct (fill_inv_final M go ge th st (S p) (S q) Hinv) as (Hh & _);
        [lia|lia|].
      by rewrite Hm.
    + intros a b h Ha' Hb' Hord Hget.
      assert (a ≤ nd_rows M) by lia.
      destruct (fill_inv_final M go ge th st a b Hinv) as (Hh & _); [lia|lia|].
      rewrite Hh in Hget. injection Hget as <-.
      eapply Hfirst; [exact Hpq|done|done|]. unfold filled. lia.
Qed.

Lemma alignment_ends_at_first_maximum_witness :
  ∃ score al H,
    smith_waterman_chunks test_S GAP_OPEN GAP_EXTEND SCORE_THRESHOLD
      = Some (score, al, H) ∧
    ((score = 0%Q ∧ al = []) ∨ (0 < score)%Q).
Proof.
  destruct (alignment_ends_at_first_maximum test_S GAP_OPEN GAP_EXTEND
              SCORE_THRESHOLD wf_test_S) as (score & al & H & Hsw & Hcase).
  - unfold GAP_OPEN. lra.
  - unfold GAP_EXTEND. lra.
  - exists score, al, H. split; [exact Hsw|].
    destruct Hcase as [?|[? _]]; [by left|by right].
Defined.

Lemma alignment_strictly_increasing_aux M go ge th :
  wf M →
  ∃ score al H,
    smith_waterman_chunks M go ge th = Some (score, al, H) ∧
    StronglySorted pair_lt al ∧
    Forall (λ p, p.1 < nd_rows M ∧ p.2 < nd_cols M) al.
Proof.
  intros HM.
  destruct (sw_path_spec M go ge th HM)
    as (st & p & q & new & _ & _ & _ & Hp & Hq & _ & Hsw & Hs & Hall & _).
  exists (max_score st), (rev new), (H_matrix st).
  split; [done|]. split; [by apply StronglySorted_flip_rev|].
  apply Forall_rev. eapply Forall_impl; [exact Hall|].
  cbn beta. intros x (? & ? & _). lia.
Qed.

(** ** What the extractor returns *)

(** Induction over the passes of the extractor: [I] is kept by masking and
    [P] holds for every accepted pair. *)
Lemma extract_val_passes go ge ms mc (I : ndarray Q → Prop)
    (P : Q * list (nat * nat) → Prop) :
  (∀ W score al H W',
     wf W → I W →
     smith_waterman_chunks W go ge SCORE_THRESHOLD = Some (score, al, H) →
     Qltb score ms || (Z.of_nat (length al) <? mc)%Z = false →
     mask_array W al = Some W' →
     P (score, al) ∧ I W') →
  ∀ n W acc, wf W → I W → Forall P acc →
    ∃ res W', extract_val n W go ge ms mc acc = Some (res, W') ∧
              Forall P res ∧ length res ≤ length acc + n ∧
              acc `prefix_of` res.
Proof.
  intros Hstep. induction n as [|n IH]; intros W acc HW HI Hacc; simpl.
  { exists acc, W. split_and!; [done|done|lia|done]. }
  destruct (smith_waterman_chunks_spec W go ge SCORE_THRESHOLD HW)
    as (st & al & _ & _ & Hsw & Hal & _).
  rewrite Hsw; simpl.
  destruct (Qltb _ ms || _) eqn:Hstop.
  { exists acc, W. split_and!; [done|done|lia|done]. }
  destruct (mask_array_spec al W HW Hal) as (W1 & HW1 & Hwf1 & _).
  rewrite HW1; simpl.
  destruct (Hstep W _ al _ W1 HW HI Hsw Hstop HW1) as [HP HI1].
  destruct (IH W1 (acc ++ [(max_score st, al)]) Hwf1 HI1)
    as (res & W' & Hres & HPres & Hlen & Hpre).
  { apply Forall_app. split; [done|]. by constructor. }
  exists res, W'. split_and!; [done|done|..].
  - rewrite length_app in Hlen. simpl in Hlen. lia.
  - etrans; [|exact Hpre]. by apply prefix_app_r.
Qed.

(** X6: the extractor returns at most max_alignments pairs (none when
    max_alignments is not positive), each with a score of at least
    min_score and an alignment of at least min_chunks pairs. *)
Theorem extractor_respects_limits (σ : store) l M go ge ms mc mx :
  σ !! l = Some M → wf M →
  ∃ res (σ' : store),
    find_multiple_alignments l go ge ms mc mx σ = Some (res, σ') ∧
    length res ≤ Z.to_nat mx ∧
    Forall (λ x, (ms <= x.1)%Q ∧ (mc ≤ Z.of_nat (length x.2))%Z) res.
Proof.
  intros Hl HM.
  rewrite (find_multiple_alignments_val l go ge ms mc mx σ M Hl).
  destruct (extract_val_passes go ge ms mc (λ _, True)
              (λ x, (ms <= x.1)%Q ∧ (mc ≤ Z.of_nat (length x.2))%Z))
    with (n := Z.to_nat mx) (W := M) (acc := @nil (Q * list (nat * nat)))
    as (res & W' & -> & HP & Hlen & _); try done.
  - intros W score al H W' _ _ _ Hstop _. split; [|done].
    apply orb_false_iff in Hstop as [Hs Hc]. cbn [fst snd].
    unfold Qltb in Hs. destruct (Qlt_le_dec score ms); [done|].
    split; [done|]. by apply Z.ltb_ge in Hc.
  - simpl. eauto.
Qed.

Lemma extractor_respects_limits_witness :
  ∃ res (σ' : store),
    find_multiple_alignments 0 GAP_OPEN GAP_EXTEND 1 3 10 {[ 0 := test_S ]}
      = Some (res, σ') ∧
    length res ≤ Z.to_nat 10 ∧
    Forall (λ x, (1 <= x.1)%Q ∧ (3 ≤ Z.of_nat (length x.2))%Z) res.
Proof.
  apply (extractor_respects_limits _ 0 test_S).
  - reflexivity.
  - apply wf_test_S.
Defined.

(** X7: every alignment that the extractor returns lies inside the matrix
    and grows strictly in both indices. *)
Theorem extractor_alignments_well_formed (σ : store) l M go ge ms mc mx :
  σ !! l = Some M → wf M →
  ∃ res (σ' : store),
    find_multiple_alignments l go ge ms mc mx σ = Some (res, σ') ∧
    Forall (λ x, StronglySorted pair_lt x.2 ∧
                 Forall (λ p, p.1 < nd_rows M ∧ p.2 < nd_cols M) x.2) res.
Proof.
  intros Hl HM.
  rewrite (find_multiple_alignments_val l go ge ms mc mx σ M Hl).
  destruct (extract_val_passes go ge ms mc (λ W, shape W = shape M)
              (λ x, StronglySorted pair_lt x.2 ∧
                    Forall (λ p, p.1 < nd_rows M ∧ p.2 < nd_cols M) x.2))
    with (n := Z.to_nat mx) (W := M) (acc := @nil (Q * list (nat * nat)))
    as (res & W' & -> & HP & _); try done.
  - intros W score al H W' HW Hsh Hsw _ Hmask. injection Hsh as Hr Hc.
    destruct (alignment_strictly_increasing_aux W go ge SCORE_THRESHOLD HW)
      as (score' & al' & H' & Hsw' & Hsorted & Hal).
    rewrite Hsw in Hsw'. injection Hsw' as <- <- <-.
    rewrite Hr, Hc in Hal. split; [done|].
    destruct (mask_array_spec al W HW) as (W1 & HW1 & _ & Hsh1 & _).
    { by rewrite Hr, Hc. }
    rewrite Hmask in HW1. injection HW1 as <-.
    rewrite Hsh1. unfold shape. by rewrite Hr, Hc.
  - simpl. eauto.
Qed.

Lemma extractor_alignments_well_formed_witness :
  ∃ res (σ' : store),
    find_multiple_alignments 0 GAP_OPEN GAP_EXTEND 1 3 10 {[ 0 := test_S ]}
      = Some (res, σ') ∧
    Forall (λ x, StronglySorted pair_lt x.2 ∧
                 Forall (λ p, p.1 < 3 ∧ p.2 < 3) x.2) res.
Proof.
  apply (extractor_alignments_well_formed _ 0 test_S).
  - reflexivity.
  - apply wf_test_S.
Defined.

Lemma extract_val_step_prefix go ge ms mc n : ∀ W acc,
  wf W →
  ∃ r1 W1 r2 W2,
    extract_val n W go ge ms mc acc = Some (r1, W1) ∧
    extract_val (S n) W go ge ms mc acc = Some (r2, W2) ∧
    r1 `prefix_of` r2.
Proof.
  induction n as [|n IH]; intros W acc HW.
  - destruct (extract_val_passes go ge ms mc (λ _, True) (λ _, True))
      with (n := 1) (W := W) (acc := acc)
      as (res & W' & Hres & _ & _ & Hpre); try done.
    { apply Forall_true. done. }
    exists acc, W, res, W'. done.
  - change (extract_val (S (S n)) W go ge ms mc acc)
      with ('(score, alignment, _) ←
              smith_waterman_chunks W go ge SCORE_THRESHOLD;
            if Qltb score ms || (Z.of_nat (length alignment) <? mc)%Z
            then Some (acc, W)
            else W' ← mask_array W alignment;
                 extract_val (S n) W' go ge ms mc (acc ++ [(score, alignment)])).
    cbn [extract_val].
    destruct (smith_waterman_chunks_spec W go ge SCORE_THRESHOLD HW)
      as (st & al & _ & _ & -> & Hal & _).
    cbn [mbind option_bind].
    destruct (Qltb _ ms || _).
    { exists acc, W, acc, W. done. }
    destruct (mask_array_spec al W HW Hal) as (W1 & -> & Hwf1 & _).
    cbn [mbind option_bind].
    apply IH. done.
Qed.

Lemma extract_val_le_prefix go ge ms mc W n k :
  wf W →
  ∃ r1 W1 r2 W2,
    extract_val n W go ge ms mc [] = Some (r1, W1) ∧
    extract_val (n + k) W go ge ms mc [] = Some (r2, W2) ∧
    r1 `prefix_of` r2.
Proof.
  intros HW. induction k as [|k (r1 & W1 & r2 & W2 & E1 & E2 & Hpre)].
  - destruct (extract_val_total go ge ms mc n W [] HW) as (r & W' & E).
    exists r, W', r, W'. replace (n + 0) with n by lia. done.
  - destruct (extract_val_step_prefix go ge ms mc (n + k) W [] HW)
      as (r2' & W2' & r3 & W3 & E2' & E3 & Hpre').
    rewrite E2 in E2'. injection E2' as <- <-.
    exists r1, W1, r3, W3. replace (n + S k) with (S (n + k)) by lia.
    split_and!; [done|done|]. by etrans.
Qed.

(** X8: raising max_alignments only appends: what the extractor returns
    for a smaller count is a prefix of what it returns for a larger one. *)
Theorem extractor_prefix_in_max_alignments (σ : store) l M go ge ms mc mx mx' :
  σ !! l = Some M → wf M → (mx ≤ mx')%Z →
  ∃ r1 (σ1 : store) r2 (σ2 : store),
    find_multiple_alignments l go ge ms mc mx σ = Some (r1, σ1) ∧
    find_multiple_alignments l go ge ms mc mx' σ = Some (r2, σ2) ∧
    r1 `prefix_of` r2.
Proof.
  intros Hl HM Hle.
  rewrite !(find_multiple_alignments_val l go ge ms mc _ σ M Hl).
  destruct (extract_val_le_prefix go ge ms mc M (Z.to_nat mx)
              (Z.to_nat mx' - Z.to_nat mx) HM)
    as (r1 & W1 & r2 & W2 & E1 & E2 & Hpre).
  replace (Z.to_nat mx + (Z.to_nat mx' - Z.to_nat mx)) with (Z.to_nat mx')
    in E2 by lia.
  rewrite E1, E2. simpl. eauto 10.
Qed.

Lemma extractor_prefix_in_max_alignments_witness :
  ∃ r1 (σ1 : store) r2 (σ2 : store),
    find_multiple_alignments 0 (-1 # 4) (-1 # 8) 1 3 1 {[ 0 := order_S ]}
      = Some (r1, σ1) ∧
    find_multiple_alignments 0 (-1 # 4) (-1 # 8) 1 3 10 {[ 0 := order_S ]}
      = Some (r2, σ2) ∧
    r1 `prefix_of` r2.
Proof.
  apply (extractor_prefix_in_max_alignments _ 0 order_S).
  - reflexivity.
  - split; [reflexivity|]. repeat constructor.
  - lia.
Defined.

(** ** Disjoint alignments *)





(** ** chunk_protein *)

Section Chunking.
Context {Id A : Type}.
Implicit Types (pid : Id) (sequence : list A) (chunks : list (chunk Id A)).

Lemma py_slice_inside sequence lo hi :
  (0 ≤ lo ≤ hi)%Z → (hi ≤ Z.of_nat (length sequence))%Z →
  py_slice sequence lo hi
    = take (Z.to_nat (hi - lo)) (drop (Z.to_nat lo) sequence).
Proof.
  intros Hlo Hhi. unfold py_slice, slice_bound.
  destruct (Z.ltb_spec lo 0); [lia|]. destruct (Z.ltb_spec hi 0); [lia|].
  by rewrite !Z.min_l by lia.
Qed.

Lemma chunk_rows_ok_snoc pid sequence chunk_len stride chunks :
  (0 ≤ chunk_len)%Z → (0 < stride)%Z →
  chunk_rows_ok pid sequence chunk_len stride chunks →
  (Z.of_nat (length chunks) * stride < Z.of_nat (length sequence))%Z →
  chunk_rows_ok pid sequence chunk_len stride
    (chunks ++
     [Chunk pid (Z.of_nat (length chunks))
        (Z.of_nat (length chunks) * stride + 1)
        (Z.min (Z.of_nat (length chunks) * stride + chunk_len)
               (Z.of_nat (length sequence)))
        (py_slice sequence (Z.of_nat (length chunks) * stride)
           (Z.min (Z.of_nat (length chunks) * stride + chunk_len)
                  (Z.of_nat (length sequence))))]).
Proof.
  intros Hcl Hst Hok Hlt m c Hm.
  destruct (decide (m < length chunks)) as [Hin|Hout].
  { rewrite lookup_app_l in Hm by done. by apply Hok. }
  assert (m = length chunks) as ->.
  { apply lookup_lt_Some in Hm. rewrite length_app in Hm. simpl in Hm. lia. }
  rewrite lookup_app_r, Nat.sub_diag in Hm by lia. injection Hm as <-.
  cbn [protein_id chunk_index start end_ chunk_seq].
  assert (0 ≤ Z.of_nat (length chunks) * stride)%Z
    by (apply Z.mul_nonneg_nonneg; lia).
  set (s0 := (Z.of_nat (length chunks) * stride)%Z) in *. clearbody s0.
  split_and!; try done; [|lia].
  rewrite py_slice_inside by lia.
  by replace (s0 + 1 - 1)%Z with s0 by lia.
Qed.

(** The loop from row [length chunks] on, with enough fuel. *)
Lemma chunk_loop_spec pid sequence chunk_len stride :
  (0 ≤ chunk_len)%Z → (0 < stride)%Z →
  ∀ fuel chunks,
    chunk_rows_ok pid sequence chunk_len stride chunks →
    Forall (λ c, (end_ c < Z.of_nat (length sequence))%Z) chunks →
    (Z.max 0 (Z.of_nat (length sequence) - Z.of_nat (length chunks) * stride)
       < Z.of_nat fuel)%Z →
    ∃ res,
      chunk_loop fuel pid sequence chunk_len stride
        (Z.of_nat (length chunks) * stride) (Z.of_nat (length chunks)) chunks
        = Some res ∧
      chunk_rows_ok pid sequence chunk_len stride res ∧
      chunks `prefix_of` res ∧
      ((∃ front c, res = front ++ [c] ∧
                   end_ c = Z.of_nat (length sequence) ∧
                   Forall (λ c, (end_ c < Z.of_nat (length sequence))%Z) front) ∨
       ((Z.of_nat (length sequence) ≤ Z.of_nat (length res) * stride)%Z ∧
        Forall (λ c, (end_ c < Z.of_nat (length sequence))%Z) res)).
Proof.
  intros Hcl Hst. induction fuel as [|fuel IH]; intros chunks Hok Hall Hfuel.
  { lia. }
  cbn [chunk_loop].
  set (L := Z.of_nat (length sequence)) in *.
  set (k := Z.of_nat (length chunks)) in *.
  destruct (Z.ltb_spec (k * stride) L) as [Hlt|Hge].
  2:{ exists chunks. split_and!; try done. right. done. }
  pose proof (chunk_rows_ok_snoc pid sequence chunk_len stride chunks
                Hcl Hst Hok Hlt) as Hok'.
  fold L k in Hok'.
  destruct (Z.eqb_spec (Z.min (k * stride + chunk_len) L) L) as [Heq|Hne].
  { eexists. split_and!; [done|done|by apply prefix_app_r|].
    left. eexists _, _. split_and!; [done|done|done]. }
  set (chunks' := chunks ++ _) in *.
  assert (Hlen : length chunks' = S (length chunks)).
  { unfold chunks'. rewrite length_app. simpl. lia. }
  replace (k * stride + stride)%Z with (Z.of_nat (length chunks') * stride)%Z
    by (rewrite Hlen; unfold k; lia).
  replace (k + 1)%Z with (Z.of_nat (length chunks'))
    by (rewrite Hlen; unfold k; lia).
  destruct (IH chunks') as (res & Hres & Hokres & Hpre & Hexit).
  - done.
  - unfold chunks'. apply Forall_app. split; [done|].
    constructor; [|done]. cbn [end_]. lia.
  - rewrite Hlen. unfold k in *. lia.
  - exists res. split_and!; [done|done| |done].
    etrans; [|exact Hpre]. by apply prefix_app_r.
Qed.

Lemma chunk_loop_more_fuel pid sequence chunk_len stride fuel n :
  ∀ start_ index_ chunks res,
    chunk_loop fuel pid sequence chunk_len stride start_ index_ chunks
      = Some res →
    chunk_loop (fuel + n) pid sequence chunk_len stride start_ index_ chunks
      = Some res.
Proof.
  induction fuel as [|fuel IH]; intros start_ index_ chunks res; [done|].
  cbn [chunk_loop Nat.add].
  destruct (_ <? _)%Z; [|done]. destruct (_ =? _)%Z; [done|]. apply IH.
Qed.

(** What [chunk_protein] returns for a positive stride. *)
Lemma chunk_protein_spec pid sequence chunk_len stride :
  (0 ≤ chunk_len)%Z → (0 < stride)%Z →
  ∃ res,
    (∀ fuel, length sequence < fuel →
       chunk_protein fuel pid sequence chunk_len stride = Some res) ∧
    chunk_rows_ok pid sequence chunk_len stride res ∧
    ((∃ front c, res = front ++ [c] ∧
                 end_ c = Z.of_nat (length sequence) ∧
                 Forall (λ c, (end_ c < Z.of_nat (length sequence))%Z) front) ∨
     ((Z.of_nat (length sequence) ≤ Z.of_nat (length res) * stride)%Z ∧
      (chunk_len < Z.of_nat (length sequence))%Z ∧
      Forall (λ c, (end_ c < Z.of_nat (length sequence))%Z) res)).
Proof.
  intros Hcl Hst. unfold chunk_protein.
  destruct (Z.leb_spec (Z.of_nat (length sequence)) chunk_len) as [Hshort|Hlong].
  - eexists. split_and!; [done| |].
    + intros [|m] c Hm; [|done]. injection Hm as <-.
      cbn [protein_id chunk_index start end_ chunk_seq].
      split_and!; try done; try lia.
      rewrite Z.sub_0_r, Nat2Z.id. simpl. by rewrite firstn_all.
      all: lia.
    + left. exists [], (Chunk pid 0 1 (Z.of_nat (length sequence)) sequence).
      split_and!; [done|done|constructor].
  - destruct (chunk_loop_spec pid sequence chunk_len stride Hcl Hst
                (S (length sequence)) [])
      as (res & Hres & Hok & _ & Hexit).
    { intros m c Hm. done. }
    { constructor. }
    { simpl length. lia. }
    exists res. split_and!; [|done|].
    + intros fuel Hfuel.
      replace fuel with (S (length sequence) + (fuel - S (length sequence)))
        by lia.
      by apply chunk_loop_more_fuel.
    + destruct Hexit as [?|[? ?]]; [by left|by right].
Qed.

End Chunking.

(** X10: for a positive stride (and a chunk length that is not negative)
    chunk_protein returns, with any fuel above the length of the sequence,
    a list of rows that is not empty; row m has index m, starts at
    m * stride + 1, ends at min(m * stride + chunk_len, L), and holds
    exactly the characters start..end of the sequence. *)
Theorem chunk_protein_rows {Id A} (pid : Id) (sequence : list A) chunk_len stride :
  (0 ≤ chunk_len)%Z → (0 < stride)%Z →
  ∃ res,
    (∀ fuel, length sequence < fuel →
       chunk_protein fuel pid sequence chunk_len stride = Some res) ∧
    res ≠ [] ∧
    ∀ m c, res !! m = Some c →
      protein_id c = pid ∧ chunk_index c = Z.of_nat m ∧
      start c = (Z.of_nat m * stride + 1)%Z ∧
      end_ c = Z.min (Z.of_nat m * stride + chunk_len)
                     (Z.of_nat (length sequence)) ∧
      chunk_seq c = take (Z.to_nat (end_ c - (start c - 1)))
                         (drop (Z.to_nat (start c - 1)) sequence) ∧
      Z.of_nat (length (chunk_seq c)) = (end_ c - start c + 1)%Z ∧
      (Z.of_nat (length (chunk_seq c)) ≤ chunk_len)%Z ∧
      (sequence ≠ [] → (1 ≤ chunk_len)%Z →
       (1 ≤ start c ≤ end_ c)%Z ∧ (end_ c ≤ Z.of_nat (length sequence))%Z).
Proof.
  intros Hcl Hst.
  destruct (chunk_protein_spec pid sequence chunk_len stride Hcl Hst)
    as (res & Hres & Hok & Hexit).
  exists res. split_and!; [done| |].
  - intros ->. destruct Hexit as [(front & c & E & _)|(Hlen & Hlong & _)].
    + by destruct front.
    + simpl in Hlen. lia.
  - intros m c Hm. destruct (Hok m c Hm) as (Hp & Hi & Hs & He & Hseq & Hb).
    split_and!; try done.
    + rewrite Hseq, length_take, length_drop. rewrite Hs in Hb.
      rewrite Hs, He.
      assert (0 ≤ Z.of_nat m * stride)%Z by (apply Z.mul_nonneg_nonneg; lia).
      set (s0 := (Z.of_nat m * stride)%Z) in *. clearbody s0. lia.
    + rewrite Hseq, length_take, length_drop. rewrite Hs in Hb.
      rewrite Hs, He.
      assert (0 ≤ Z.of_nat m * stride)%Z by (apply Z.mul_nonneg_nonneg; lia).
      set (s0 := (Z.of_nat m * stride)%Z) in *. clearbody s0. lia.
    + intros Hne Hcl1. rewrite Hs in Hb. rewrite Hs, He.
      assert (0 < Z.of_nat (length sequence))%Z
        by (destruct sequence; [done|simpl; lia]).
      assert (0 ≤ Z.of_nat m * stride)%Z by (apply Z.mul_nonneg_nonneg; lia).
      set (s0 := (Z.of_nat m * stride)%Z) in *. clearbody s0. lia.
Qed.

Lemma chunk_protein_rows_witness :
  ∃ res,
    (∀ fuel, length [1; 2; 3; 4; 5; 6; 7] < fuel →
       chunk_protein fuel tt [1; 2; 3; 4; 5; 6; 7] 3 2 = Some res) ∧
    res ≠ [].
Proof.
  destruct (chunk_protein_rows tt [1; 2; 3; 4; 5; 6; 7] 3 2) as (res & H1 & H2 & _);
    [lia|lia|].
  exists res. split; [exact H1|exact H2].
Defined.

(** X11: when the stride is positive and at most the chunk length, the last
    row ends at the end of the sequence, every earlier row has exactly
    chunk_len characters, and every position 1..L of the sequence lies in
    some row. *)
Theorem chunk_protein_covers {Id A} (pid : Id) (sequence : list A) chunk_len stride :
  (0 < stride ≤ chunk_len)%Z →
  ∃ res front c,
    (∀ fuel, length sequence < fuel →
       chunk_protein fuel pid sequence chunk_len stride = Some res) ∧
    res = front ++ [c] ∧ end_ c = Z.of_nat (length sequence) ∧
    Forall (λ c', Z.of_nat (length (chunk_seq c')) = chunk_len) front ∧
    ∀ pos, (1 ≤ pos ≤ Z.of_nat (length sequence))%Z →
      ∃ c', c' ∈ res ∧ (start c' ≤ pos ≤ end_ c')%Z.
Proof.
  intros [Hst Hle].
  destruct (chunk_protein_spec pid sequence chunk_len stride) as
    (res & Hres & Hok & Hexit); [lia|lia|].
  set (L := Z.of_nat (length sequence)) in *.
  assert (Hmul : ∀ m : nat, (0 ≤ Z.of_nat m * stride)%Z)
    by (intros m; apply Z.mul_nonneg_nonneg; lia).
  assert (Hbreak : ∃ front c, res = front ++ [c] ∧ end_ c = L ∧
                     Forall (λ c, (end_ c < L)%Z) front).
  { destruct Hexit as [?|(Hlen & Hlong & Hall)]; [done|]. exfalso.
    destruct res as [|c0 res0] using rev_ind; [simpl in Hlen; lia|].
    clear IHres0. rewrite length_app in Hlen. simpl in Hlen.
    destruct (Hok (length res0) c0) as (_ & _ & _ & He & _).
    { by rewrite lookup_app_r, Nat.sub_diag by lia. }
    apply Forall_app in Hall as [_ Hc0]. rewrite Forall_singleton in Hc0.
    rewrite He in Hc0. fold L in Hc0.
    specialize (Hmul (length res0)).
    set (s0 := (Z.of_nat (length res0) * stride)%Z) in *.
    assert (Z.of_nat (length res0 + 1) * stride = s0 + stride)%Z
      by (unfold s0; lia).
    clearbody s0. lia. }
  destruct Hbreak as (front & c & -> & Hc & Hfront).
  exists (front ++ [c]), front, c. split_and!; [done|done|done|..].
  - apply Forall_forall. intros c' Hin.
    apply list_elem_of_lookup in Hin as [m Hm].
    destruct (Hok m c') as (_ & _ & Hs & He & Hseq & _).
    { by rewrite lookup_app_l by (by eapply lookup_lt_Some). }
    rewrite Forall_forall in Hfront.
    assert (Hlt : (end_ c' < L)%Z).
    { apply Hfront. apply list_elem_of_lookup. eauto. }
    rewrite Hseq, length_take, length_drop, Hs.
    rewrite He in Hlt |- *. fold L in Hlt |- *.
    specialize (Hmul m).
    set (s0 := (Z.of_nat m * stride)%Z) in *. clearbody s0. unfold L in *. lia.
  - intros pos Hpos.
    assert (Hfind : ∀ n m c', n + m = length front →
              (front ++ [c]) !! m = Some c' → (start c' ≤ pos)%Z →
              ∃ c'', c'' ∈ front ++ [c] ∧ (start c'' ≤ pos ≤ end_ c'')%Z).
    { induction n as [|n IH]; intros m c' Hn Hm Hs.
      - assert (m = length front) as -> by lia.
        rewrite lookup_app_r, Nat.sub_diag in Hm by lia. injection Hm as <-.
        exists c. split; [apply elem_of_app; right; apply list_elem_of_here|].
        lia.
      - destruct (decide (pos ≤ end_ c')%Z) as [Hin|Hout].
        { exists c'. split; [|lia]. apply list_elem_of_lookup. eauto. }
        destruct (lookup_lt_is_Some_2 (front ++ [c]) (S m)) as [c1 Hc1].
        { rewrite length_app. simpl. lia. }
        apply (IH (S m) c1); [lia|done|].
        destruct (Hok m c' Hm) as (_ & _ & _ & He & _).
        destruct (Hok (S m) c1 Hc1) as (_ & _ & Hs1 & _).
        rewrite Hs1. rewrite He in Hout. fold L in Hout.
        specialize (Hmul m).
        set (s0 := (Z.of_nat m * stride)%Z) in *.
        assert (Z.of_nat (S m) * stride = s0 + stride)%Z by (unfold s0; lia).
        clearbody s0. lia. }
    destruct (lookup_lt_is_Some_2 (front ++ [c]) 0) as [c0 Hc0].
    { rewrite length_app. simpl. lia. }
    apply (Hfind (length front) 0 c0); [lia|done|].
    destruct (Hok 0 c0 Hc0) as (_ & _ & -> & _). lia.
Qed.

Lemma chunk_protein_covers_witness :
  ∃ res front c,
    (∀ fuel, length [1; 2; 3; 4; 5; 6; 7] < fuel →
       chunk_protein fuel tt [1; 2; 3; 4; 5; 6; 7] 3 2 = Some res) ∧
    res = front ++ [c] ∧ end_ c = 7%Z.
Proof.
  destruct (chunk_protein_covers tt [1; 2; 3; 4; 5; 6; 7] 3 2)
    as (res & front & c & H1 & H2 & H3 & _); [lia|].
  exists res, front, c. split; [exact H1|]. split; [exact H2|exact H3].
Defined.

Lemma chunk_loop_diverges {Id A} (pid : Id) (sequence : list A) chunk_len stride fuel :
  (stride ≤ 0)%Z → (chunk_len < Z.of_nat (length sequence))%Z →
  (0 < Z.of_nat (length sequence))%Z →
  ∀ start_ index_ chunks, (start_ ≤ 0)%Z →
    chunk_loop fuel pid sequence chunk_len stride start_ index_ chunks = None.
Proof.
  intros Hst Hcl HL. induction fuel as [|fuel IH];
    intros start_ index_ chunks Hs; [done|].
  cbn [chunk_loop].
  destruct (Z.ltb_spec start_ (Z.of_nat (length sequence))); [|lia].
  destruct (Z.eqb_spec (Z.min (start_ + chunk_len) (Z.of_nat (length sequence)))
              (Z.of_nat (length sequence))); [lia|].
  apply IH. lia.
Qed.

(** X12: with a stride of 0 or less and a sequence longer than chunk_len
    the loop never ends: no amount of fuel gives a result. *)
Theorem chunk_protein_diverges {Id A} (pid : Id) (sequence : list A)
    chunk_len stride fuel :
  (stride ≤ 0)%Z → (chunk_len < Z.of_nat (length sequence))%Z →
  sequence ≠ [] →
  chunk_protein fuel pid sequence chunk_len stride = None.
Proof.
  intros Hst Hcl Hne. unfold chunk_protein.
  destruct (Z.leb_spec (Z.of_nat (length sequence)) chunk_len); [lia|].
  apply chunk_loop_diverges; try done.
  destruct sequence; [done|simpl; lia].
Qed.

Lemma chunk_protein_diverges_witness :
  chunk_protein 1000 tt [1; 2; 3; 4; 5; 6; 7] 3 0 = None.
Proof.
  apply chunk_protein_diverges; [lia|simpl; lia|done].
Defined.

(** ** sanitize_protein_id *)

Lemma sanitize_loop (s : list ascii) :
  foldl (λ clean char, str_replace char "_"%char clean) s invalid_chars
    = map clean_char s.
Proof.
  unfold invalid_chars, str_replace. cbn [foldl]. rewrite !map_map.
  apply map_ext. intros [[] [] [] [] [] [] [] []]; reflexivity.
Qed.

Lemma clean_char_valid (x : ascii) :
  existsb (Ascii.eqb (clean_char x)) invalid_chars = false.
Proof. destruct x as [[] [] [] [] [] [] [] []]; reflexivity. Qed.

Lemma clean_char_id (x : ascii) :
  existsb (Ascii.eqb x) invalid_chars = false → clean_char x = x.
Proof. unfold clean_char. by intros ->. Qed.

Lemma valid_not_bar (x : ascii) :
  existsb (Ascii.eqb x) invalid_chars = false → Ascii.eqb "|"%char x = false.
Proof. destruct x as [[] [] [] [] [] [] [] []]; simpl; congruence. Qed.

Lemma str_split_no_sep sep (s : list ascii) :
  Forall (λ x, Ascii.eqb x sep = false) s → str_split sep s = [s].
Proof.
  induction 1 as [|x s Hx Hs IH]; simpl; [done|]. by rewrite Hx, IH.
Qed.

Lemma str_split_at_sep sep (a rest : list ascii) :
  Forall (λ x, Ascii.eqb x sep = false) a →
  str_split sep (a ++ sep :: rest) = a :: str_split sep rest.
Proof.
  induction 1 as [|x s Hx Hs IH]; simpl.
  - by rewrite Ascii.eqb_refl.
  - by rewrite Hx, IH.
Qed.

Lemma existsb_bar_app (a rest : list ascii) :
  existsb (Ascii.eqb "|"%char) (a ++ "|"%char :: rest) = true.
Proof.
  rewrite existsb_app. cbn [existsb]. by rewrite Ascii.eqb_refl, orb_true_r.
Qed.

(** X13: the sanitized identifier contains none of the characters
    [invalid_chars], and sanitizing it again changes nothing. *)
Theorem sanitize_protein_id_safe (protein_id : list ascii) :
  Forall (λ x, existsb (Ascii.eqb x) invalid_chars = false)
         (sanitize_protein_id protein_id) ∧
  sanitize_protein_id (sanitize_protein_id protein_id)
    = sanitize_protein_id protein_id.
Proof.
  assert (Hvalid : ∀ s, Forall (λ x, existsb (Ascii.eqb x) invalid_chars = false)
                               (map clean_char s)).
  { intros s. apply Forall_forall. intros x Hx.
    apply list_elem_of_In, in_map_iff in Hx as (y & <- & _).
    apply clean_char_valid. }
  assert (Hfix : ∀ s, Forall (λ x, existsb (Ascii.eqb x) invalid_chars = false) s →
                      sanitize_protein_id s = s).
  { intros s Hs. unfold sanitize_protein_id.
    assert (existsb (Ascii.eqb "|"%char) s = false) as ->.
    { induction Hs as [|x s Hx Hs IH]; cbn [existsb]; [done|].
      by rewrite (valid_not_bar x Hx), IH. }
    rewrite sanitize_loop.
    induction Hs as [|x s Hx Hs IH]; cbn [map]; [done|].
    by rewrite (clean_char_id x Hx), IH. }
  assert (Hres : Forall (λ x, existsb (Ascii.eqb x) invalid_chars = false)
                        (sanitize_protein_id protein_id)).
  { unfold sanitize_protein_id. rewrite sanitize_loop. apply Hvalid. }
  split; [done|]. by apply Hfix.
Qed.

(** X14: an identifier without a bar is only cleaned character by
    character; from [a|b] and from [a|b|rest], with no bar in [a] and [b],
    the part [b] is taken and cleaned; an identifier without invalid
    characters is returned as it is. *)
Theorem sanitize_protein_id_extracts (a b rest : list ascii) :
  Forall (λ x, Ascii.eqb x "|"%char = false) a →
  Forall (λ x, Ascii.eqb x "|"%char = false) b →
  sanitize_protein_id a = map clean_char a ∧
  sanitize_protein_id (a ++ "|"%char :: b) = map clean_char b ∧
  sanitize_protein_id (a ++ "|"%char :: b ++ "|"%char :: rest)
    = map clean_char b ∧
  (Forall (λ x, existsb (Ascii.eqb x) invalid_chars = false) b →
   map clean_char b = b).
Proof.
  intros Ha Hb. split_and!.
  - unfold sanitize_protein_id.
    assert (existsb (Ascii.eqb "|"%char) a = false) as ->.
    { induction Ha as [|x s Hx Hs IH]; cbn [existsb]; [done|].
      rewrite (Ascii.eqb_sym "|"%char x), Hx. exact IH. }
    apply sanitize_loop.
  - unfold sanitize_protein_id. rewrite existsb_bar_app.
    rewrite (str_split_at_sep _ a b Ha), (str_split_no_sep _ b Hb).
    simpl. apply sanitize_loop.
  - unfold sanitize_protein_id. rewrite existsb_bar_app.
    rewrite (str_split_at_sep _ a _ Ha), (str_split_at_sep _ b rest Hb).
    cbn [length Nat.leb nth]. apply sanitize_loop.
  - clear Hb. induction 1 as [|x s Hx Hs IH]; cbn [map]; [done|].
    by rewrite (clean_char_id x Hx), IH.
Qed.

Lemma sanitize_protein_id_extracts_witness :
  sanitize_protein_id ["t"; "r"; "|"; "A"; "0"; "|"; "A"; "0"; "_"; "H"]%char
    = ["A"; "0"]%char.
Proof.
  pose proof (sanitize_protein_id_extracts ["t"; "r"]%char ["A"; "0"]%char
                ["A"; "0"; "_"; "H"]%char) as H.
  destruct H as (_ & _ & H & _); [by repeat constructor..|].
  exact H.
Defined.

(** ** The aligned region and the summary *)

Lemma pair_lt_sorted_length l : ∀ a b n m,
  StronglySorted pair_lt l →
  Forall (λ p, a ≤ p.1 < n ∧ b ≤ p.2 < m) l → a ≤ n → b ≤ m →
  a + length l ≤ n ∧ b + length l ≤ m.
Proof.
  induction l as [|x l IH]; intros a b n m Hs Hall Ha Hb; simpl; [lia|].
  apply StronglySorted_cons in Hs as [Hx Hs].
  apply Forall_cons in Hall as [Hx0 Hall].
  destruct (IH (S x.1) (S x.2) n m) as [H1 H2]; [done| |lia|lia|lia].
  rewrite Forall_forall in Hx, Hall |- *. intros y Hy.
  specialize (Hx y Hy). specialize (Hall y Hy). unfold pair_lt in Hx. lia.
Qed.

(** X15: the returned alignment has at most min(n1, n2) pairs. *)
Theorem alignment_length_bounded M go ge th :
  wf M →
  ∃ score al H,
    smith_waterman_chunks M go ge th = Some (score, al, H) ∧
    length al ≤ nd_rows M ∧ length al ≤ nd_cols M.
Proof.
  intros HM.
  destruct (alignment_strictly_increasing_aux M go ge th HM)
    as (score & al & H & Hsw & Hs & Hal).
  exists score, al, H. split; [done|].
  destruct (pair_lt_sorted_length al 0 0 (nd_rows M) (nd_cols M)) as [? ?];
    [done| |lia|lia|lia].
  eapply Forall_impl; [exact Hal|]. cbn beta. lia.
Qed.

Lemma alignment_length_bounded_witness :
  ∃ score al H,
    smith_waterman_chunks test_S GAP_OPEN GAP_EXTEND SCORE_THRESHOLD
      = Some (score, al, H) ∧
    length al ≤ 3 ∧ length al ≤ 3.
Proof.
  exact (alignment_length_bounded test_S GAP_OPEN GAP_EXTEND SCORE_THRESHOLD
           wf_test_S).
Defined.

Lemma chunk_protein_more_fuel {Id A} (pid : Id) (sequence : list A)
    chunk_len stride fuel n res :
  chunk_protein fuel pid sequence chunk_len stride = Some res →
  chunk_protein (fuel + n) pid sequence chunk_len stride = Some res.
Proof.
  unfold chunk_protein. destruct (_ <=? _)%Z; [done|].
  apply chunk_loop_more_fuel.
Qed.

(** The region of a sorted, non-empty index list over the rows of
    [chunk_protein]. *)
Lemma aligned_region_valid {Id A} (pid : Id) (sequence : list A)
    chunk_len stride fuel chunks (indices : list nat) :
  sequence ≠ [] → (1 ≤ chunk_len)%Z → (0 < stride)%Z →
  chunk_protein fuel pid sequence chunk_len stride = Some chunks →
  StronglySorted lt indices → Forall (λ i, i < length chunks) indices →
  indices ≠ [] →
  ∃ s e, aligned_region chunks indices = Some (s, e) ∧
         (1 ≤ s ≤ e)%Z ∧ (e ≤ Z.of_nat (length sequence))%Z.
Proof.
  intros Hne Hcl Hst Hchunks Hsorted Hall Hidx.
  destruct (chunk_protein_spec pid sequence chunk_len stride)
    as (res & Hres & Hrows & _); [lia|lia|].
  assert (res = chunks) as ->.
  { apply (chunk_protein_more_fuel _ _ _ _ _ (S (length sequence))) in Hchunks.
    rewrite Hres in Hchunks by lia. by injection Hchunks. }
  destruct indices as [|i0 rest]; [done|].
  assert (Hlast : ∃ i1, last (i0 :: rest) = Some i1 ∧ i0 ≤ i1 ∧
                        i1 < length chunks).
  { destruct (last (i0 :: rest)) as [i1|] eqn:E.
    2:{ by apply last_None in E. }
    exists i1. split; [done|].
    apply StronglySorted_cons in Hsorted as [Hi0 _].
    rewrite Forall_forall in Hi0, Hall.
    apply last_Some in E as (front & E).
    assert (i1 ∈ i0 :: rest).
    { rewrite E. apply elem_of_app. right. apply list_elem_of_here. }
    split; [|by apply Hall].
    destruct front as [|x front]; simpl in E.
    - injection E as ->. lia.
    - injection E as -> ->.
      assert (i1 ∈ front ++ [i1])
        by (apply elem_of_app; right; apply list_elem_of_here).
      specialize (Hi0 i1 ltac:(done)). lia. }
  destruct Hlast as (i1 & Elast & Hle & Hi1).
  apply Forall_cons in Hall as [Hi0 _].
  destruct (lookup_lt_is_Some_2 chunks i0 Hi0) as [c0 Hc0].
  destruct (lookup_lt_is_Some_2 chunks i1 Hi1) as [c1 Hc1].
  unfold aligned_region. rewrite Elast. cbn [head mbind option_bind].
  rewrite Hc0, Hc1. cbn [mbind option_bind].
  exists (start c0), (end_ c1). split; [done|].
  destruct (Hrows i0 c0 Hc0) as (_ & _ & Hs0 & _).
  destruct (Hrows i1 c1 Hc1) as (_ & _ & Hs1 & He1 & _ & Hb1).
  assert (0 < Z.of_nat (length sequence))%Z
    by (destruct sequence; [done|simpl; lia]).
  assert (Z.of_nat i0 * stride ≤ Z.of_nat i1 * stride)%Z
    by (apply Z.mul_le_mono_nonneg_r; lia).
  assert (0 ≤ Z.of_nat i0 * stride)%Z by (apply Z.mul_nonneg_nonneg; lia).
  rewrite Hs1 in Hb1. rewrite Hs0, He1.
  set (s0 := (Z.of_nat i0 * stride)%Z) in *.
  set (s1 := (Z.of_nat i1 * stride)%Z) in *.
  clearbody s0 s1. lia.
Qed.

(** X16: aligned regions are valid residue ranges.  When the rows of the
    similarity matrix are the chunks that chunk_protein made of a sequence
    that is not empty (chunk length at least 1, positive stride), the
    positions reported for a non-empty alignment of the aligner satisfy
    1 <= start <= end <= len(sequence); likewise for the columns. *)
Theorem reported_region_valid {Id A} (pid1 pid2 : Id) (seq1 seq2 : list A)
    chunk_len stride fuel1 fuel2 chunks1 chunks2 M go ge th score al H :
  seq1 ≠ [] → seq2 ≠ [] → (1 ≤ chunk_len)%Z → (0 < stride)%Z →
  chunk_protein fuel1 pid1 seq1 chunk_len stride = Some chunks1 →
  chunk_protein fuel2 pid2 seq2 chunk_len stride = Some chunks2 →
  wf M → shape M = (length chunks1, length chunks2) →
  smith_waterman_chunks M go ge th = Some (score, al, H) → al ≠ [] →
  ∃ h_start h_end b_start b_end,
    aligned_region chunks1 al.*1 = Some (h_start, h_end) ∧
    aligned_region chunks2 al.*2 = Some (b_start, b_end) ∧
    (1 ≤ h_start ≤ h_end)%Z ∧ (h_end ≤ Z.of_nat (length seq1))%Z ∧
    (1 ≤ b_start ≤ b_end)%Z ∧ (b_end ≤ Z.of_nat (length seq2))%Z.
Proof.
  intros Hne1 Hne2 Hcl Hst Hc1 Hc2 HM Hsh Hsw Hal.
  injection Hsh as Hr Hc.
  destruct (alignment_strictly_increasing_aux M go ge th HM)
    as (score' & al' & H' & Hsw' & Hs & Hbounds).
  rewrite Hsw in Hsw'. injection Hsw' as <- <- <-.
  destruct (aligned_region_valid pid1 seq1 chunk_len stride fuel1 chunks1 al.*1)
    as (s1 & e1 & E1 & ? & ?); try done.
  { apply (StronglySorted_fmap _ pair_lt lt); [|exact Hs].
    intros x y [? _]. done. }
  { apply Forall_fmap. eapply Forall_impl; [exact Hbounds|].
    cbn beta. intros x [? _]. simpl. lia. }
  { by destruct al. }
  destruct (aligned_region_valid pid2 seq2 chunk_len stride fuel2 chunks2 al.*2)
    as (s2 & e2 & E2 & ? & ?); try done.
  { apply (StronglySorted_fmap _ pair_lt lt); [|exact Hs].
    intros x y [_ ?]. done. }
  { apply Forall_fmap. eapply Forall_impl; [exact Hbounds|].
    cbn beta. intros x [_ ?]. simpl. lia. }
  { by destruct al. }
  exists s1, e1, s2, e2. done.
Qed.

Lemma reported_region_valid_witness :
  ∃ h_start h_end b_start b_end,
    aligned_region
      [Chunk tt 0 1 3 [1; 2; 3]; Chunk tt 1 3 5 [3; 4; 5];
       Chunk tt 2 5 7 [5; 6; 7]] [(0, 0); (1, 1); (2, 2)].*1
      = Some (h_start, h_end) ∧
    aligned_region
      [Chunk tt 0 1 3 [1; 2; 3]; Chunk tt 1 3 5 [3; 4; 5];
       Chunk tt 2 5 7 [5; 6; 7]] [(0, 0); (1, 1); (2, 2)].*2
      = Some (b_start, b_end) ∧
    (1 ≤ h_start ≤ h_end)%Z ∧ (h_end ≤ 7)%Z ∧
    (1 ≤ b_start ≤ b_end)%Z ∧ (b_end ≤ 7)%Z.
Proof.
  destruct test_S_alignment as (score & H & Hsw & _).
  apply (reported_region_valid tt tt [1; 2; 3; 4; 5; 6; 7] [1; 2; 3; 4; 5; 6; 7]
           3 2 8 8 _ _ test_S GAP_OPEN GAP_EXTEND SCORE_THRESHOLD score
           [(0, 0); (1, 1); (2, 2)] H).
  - discriminate.
  - discriminate.
  - lia.
  - lia.
  - reflexivity.
  - reflexivity.
  - apply wf_test_S.
  - reflexivity.
  - exact Hsw.
  - discriminate.
Defined.

Lemma py_sum_nat_bounds (l : list nat) a b :
  Forall (λ x, a ≤ x ≤ b) l →
  a * length l ≤ py_sum_nat l ≤ b * length l.
Proof.
  unfold py_sum_nat. intros Hall.
  assert (Hgen : ∀ acc, acc + a * length l ≤ foldl Nat.add acc l
                        ≤ acc + b * length l).
  { induction Hall as [|x l Hx Hl IH]; intros acc; simpl; [lia|].
    specialize (IH (acc + x)). lia. }
  specialize (Hgen 0). lia.
Qed.

Lemma py_max_default_ub (l : list Q) :
  Forall (λ x, (x <= py_max_default l)%Q) l ∧
  (∀ lo, l ≠ [] → Forall (λ x, (lo <= x)%Q) l → (lo <= py_max_default l)%Q).
Proof.
  destruct l as [|x l]; [split; [constructor|done]|].
  cbn [py_max_default].
  assert (Hgen : ∀ m, (m <= foldl (λ m y, if Qlt_le_dec m y then y else m) m l)%Q ∧
                      Forall (λ y, (y <= foldl (λ m y, if Qlt_le_dec m y then y else m) m l)%Q) l).
  { induction l as [|y l IH]; intros m; simpl; [split; [lra|constructor]|].
    destruct (Qlt_le_dec m y) as [Hlt|Hge].
    - destruct (IH y) as [H1 H2]. split; [lra|]. by constructor.
    - destruct (IH m) as [H1 H2]. split; [done|]. constructor; [lra|done]. }
  destruct (Hgen x) as [H1 H2]. split.
  - by constructor.
  - intros lo _ Hlo. apply Forall_cons in Hlo as [Hx _]. lra.
Qed.

(** X17: the summary of an extraction.  For the list that the extractor
    returns, generate_summary_stats reports at most max_alignments
    alignments, a total of aligned pairs of at least
    min_chunks * num_alignments and at most num_alignments * min(n1, n2),
    and a max_score that no score exceeds, that is 0 for the empty list
    and at least min_score otherwise. *)
Theorem summary_of_extraction {C1 C2} (σ : store) l M go ge ms mc mx
    (human_chunks : list C1) (bact_chunks : list C2) :
  σ !! l = Some M → wf M →
  ∃ res (σ' : store),
    find_multiple_alignments l go ge ms mc mx σ = Some (res, σ') ∧
    let stats := generate_summary_stats human_chunks bact_chunks res in
    num_alignments stats ≤ Z.to_nat mx ∧
    (mc * Z.of_nat (num_alignments stats)
       ≤ Z.of_nat (total_aligned_chunks stats))%Z ∧
    total_aligned_chunks stats
      ≤ Nat.min (nd_rows M) (nd_cols M) * num_alignments stats ∧
    Forall (λ x, (x.1 <= stats_max_score stats)%Q) res ∧
    (res = [] → stats_max_score stats = 0%Q) ∧
    (res ≠ [] → (ms <= stats_max_score stats)%Q).
Proof.
  intros Hl HM.
  rewrite (find_multiple_alignments_val l go ge ms mc mx σ M Hl).
  destruct (extract_val_passes go ge ms mc (λ W, shape W = shape M)
              (λ x, (ms <= x.1)%Q ∧
                    Z.to_nat mc ≤ length x.2
                      ≤ Nat.min (nd_rows M) (nd_cols M)))
    with (n := Z.to_nat mx) (W := M) (acc := @nil (Q * list (nat * nat)))
    as (res & W' & -> & HP & Hlen & _); try done.
  { intros W score al H W' HW Hsh Hsw Hstop Hmask. injection Hsh as Hr Hc.
    destruct (alignment_strictly_increasing_aux W go ge SCORE_THRESHOLD HW)
      as (score' & al' & H' & Hsw' & Hsorted & Hal).
    rewrite Hsw in Hsw'. injection Hsw' as <- <- <-.
    destruct (pair_lt_sorted_length al 0 0 (nd_rows W) (nd_cols W)) as [? ?];
      [done| |lia|lia|].
    { eapply Forall_impl; [exact Hal|]. cbn beta. lia. }
    apply orb_false_iff in Hstop as [Hs Hcz]. cbn [fst snd].
    unfold Qltb in Hs. destruct (Qlt_le_dec score ms); [done|].
    apply Z.ltb_ge in Hcz.
    split; [split; [done|lia]|].
    destruct (mask_array_spec al W HW) as (W1 & HW1 & _ & Hsh1 & _); [done|].
    rewrite Hmask in HW1. injection HW1 as <-.
    rewrite Hsh1. unfold shape. by rewrite Hr, Hc. }
  simpl. eexists _, _. split; [reflexivity|].
  cbn [num_alignments total_aligned_chunks stats_max_score].
  destruct (py_sum_nat_bounds (map (λ x : Q * list (nat * nat), length x.2) res)
              (Z.to_nat mc) (Nat.min (nd_rows M) (nd_cols M))) as [Hlo Hhi].
  { apply Forall_fmap. eapply Forall_impl; [exact HP|]. cbn beta.
    intros x [_ ?]. done. }
  rewrite length_map in Hlo, Hhi.
  destruct (py_max_default_ub (map fst res)) as [Hub Hlb].
  split_and!.
  - simpl in Hlen. lia.
  - destruct (Z.le_gt_cases mc 0) as [Hneg|Hpos].
    + assert (mc * Z.of_nat (length res) ≤ 0)%Z
        by (apply Z.mul_nonpos_nonneg; lia).
      lia.
    + assert (Z.of_nat (Z.to_nat mc * length res) = mc * Z.of_nat (length res))%Z
        by (rewrite Nat2Z.inj_mul; f_equal; lia).
      lia.
  - done.
  - rewrite Forall_fmap in Hub. exact Hub.
  - by intros ->.
  - intros Hne. apply Hlb; [by destruct res|].
    apply Forall_fmap. eapply Forall_impl; [exact HP|]. cbn beta.
    intros x [? _]. done.
Qed.

Lemma summary_of_extraction_witness :
  ∃ res (σ' : store),
    find_multiple_alignments 0 GAP_OPEN GAP_EXTEND 1 3 10 {[ 0 := test_S ]}
      = Some (res, σ') ∧
    num_alignments (generate_summary_stats [tt; tt; tt] [tt; tt; tt] res)
      ≤ Z.to_nat 10.
Proof.
  destruct (summary_of_extraction ({[ 0 := test_S ]} : store) 0 test_S
              GAP_OPEN GAP_EXTEND 1 3 10 [tt; tt; tt] [tt; tt; tt])
    as (res & σ' & Hfind & Hnum & _).
  - reflexivity.
  - apply wf_test_S.
  - exists res, σ'. split; [exact Hfind|exact Hnum].
Defined.

Lemma chunk_protein_break {Id A} (pid : Id) (sequence : list A) chunk_len stride :
  (0 < stride ≤ chunk_len)%Z →
  ∃ front c,
    (∀ fuel, length sequence < fuel →
       chunk_protein fuel pid sequence chunk_len stride = Some (front ++ [c])) ∧
    chunk_rows_ok pid sequence chunk_len stride (front ++ [c]) ∧
    end_ c = Z.of_nat (length sequence) ∧
    Forall (λ c, (end_ c < Z.of_nat (length sequence))%Z) front.
Proof.
  intros [Hst Hle].
  destruct (chunk_protein_spec pid sequence chunk_len stride) as
    (res & Hres & Hok & Hexit); [lia|lia|].
  destruct Hexit as [(front & c & -> & ? & ?)|(Hlen & Hlong & Hall)].
  { exists front, c. done. }
  exfalso.
  destruct res as [|c0 res0] using rev_ind; [simpl in Hlen; lia|].
  clear IHres0. rewrite length_app in Hlen. simpl in Hlen.
  destruct (Hok (length res0) c0) as (_ & _ & _ & He & _).
  { by rewrite lookup_app_r, Nat.sub_diag by lia. }
  apply Forall_app in Hall as [_ Hc0]. rewrite Forall_singleton in Hc0.
  rewrite He in Hc0.
  assert (0 ≤ Z.of_nat (length res0) * stride)%Z
    by (apply Z.mul_nonneg_nonneg; lia).
  set (s0 := (Z.of_nat (length res0) * stride)%Z) in *.
  assert (Z.of_nat (length res0 + 1) * stride = s0 + stride)%Z
    by (unfold s0; lia).
  clearbody s0. lia.
Qed.

(** X18: the number of rows.  With 0 < stride <= chunk_len, chunk_protein
    returns one row for a sequence of at most chunk_len characters and
    ceil((L - chunk_len) / stride) + 1 rows for a longer one. *)
Theorem chunk_protein_count {Id A} (pid : Id) (sequence : list A) chunk_len stride :
  (0 < stride ≤ chunk_len)%Z →
  ∃ res,
    (∀ fuel, length sequence < fuel →
       chunk_protein fuel pid sequence chunk_len stride = Some res) ∧
    Z.of_nat (length res) =
      if (Z.of_nat (length sequence) <=? chunk_len)%Z then 1%Z
      else ((Z.of_nat (length sequence) - chunk_len + stride - 1) / stride + 1)%Z.
Proof.
  intros [Hst Hle].
  destruct (chunk_protein_break pid sequence chunk_len stride)
    as (front & c & Hres & Hrows & Hc & Hfront); [lia|].
  exists (front ++ [c]). split; [done|].
  set (L := Z.of_nat (length sequence)) in *.
  rewrite length_app. simpl length.
  destruct (Z.leb_spec L chunk_len) as [Hshort|Hlong].
  - specialize (Hres (S (length sequence)) ltac:(lia)).
    unfold chunk_protein in Hres. fold L in Hres.
    destruct (Z.leb_spec L chunk_len); [|lia].
    injection Hres as Hres. destruct front as [|? [|? ?]]; simplify_eq; done.
  - destruct (Hrows (length front) c) as (_ & _ & _ & He & _).
    { by rewrite lookup_app_r, Nat.sub_diag by lia. }
    rewrite Hc in He. fold L in He.
    assert (Hk1 : (L ≤ Z.of_nat (length front) * stride + chunk_len)%Z) by lia.
    assert (Hk0 : (1 ≤ Z.of_nat (length front))%Z).
    { destruct front; [simpl in Hk1; lia|simpl; lia]. }
    assert (Hprev : ((Z.of_nat (length front) - 1) * stride + chunk_len < L)%Z).
    { destruct front as [|c' front] using rev_ind; [simpl in Hk0; lia|].
      clear IHfront. rewrite length_app. simpl length.
      destruct (Hrows (length front) c') as (_ & _ & _ & He' & _).
      { rewrite <- app_assoc. by rewrite lookup_app_r, Nat.sub_diag by lia. }
      apply Forall_app in Hfront as [_ Hc'].
      rewrite Forall_singleton in Hc'. rewrite He' in Hc'. fold L in Hc'.
      replace ((Z.of_nat (length front + 1) - 1) * stride)%Z
        with (Z.of_nat (length front) * stride)%Z by lia.
      lia. }
    set (k := Z.of_nat (length front)) in *.
    replace (Z.of_nat (length front + 1)) with (k + 1)%Z by (unfold k; lia).
    f_equal.
    apply (Z.div_unique _ _ _ (L - chunk_len + stride - 1 - stride * k)); lia.
Qed.

Lemma chunk_protein_count_witness :
  ∃ res,
    (∀ fuel, length [1; 2; 3; 4; 5; 6; 7] < fuel →
       chunk_protein fuel tt [1; 2; 3; 4; 5; 6; 7] 3 2 = Some res) ∧
    Z.of_nat (length res) = 3%Z.
Proof.
  exact (chunk_protein_count tt [1; 2; 3; 4; 5; 6; 7] 3 2 ltac:(lia)).
Defined.

(** ** check_domain_overlap *)

Lemma elem_of_domain_set (d : string) domains :
  d ∈ domain_set domains ↔ d ∈ default [] domains.
Proof.
  destruct domains as [[|x l]|].
  - simpl. rewrite elem_of_empty, elem_of_nil. done.
  - exact (elem_of_list_to_set (C := gset string) d (x :: l)).
  - simpl. rewrite elem_of_empty, elem_of_nil. done.
Qed.

(** X19: the shared domains are exactly the accessions that occur in both
    lists, each listed once; overlap_count is their number, at most the
    number of distinct accessions of either list; has_overlap holds
    exactly when the lists share an accession; and swapping the two lists
    changes neither the count nor has_overlap. *)
Theorem check_domain_overlap_shared (human bact : option (list string)) :
  let r := check_domain_overlap human bact in
  (∀ d, d ∈ shared_domains r ↔ d ∈ default [] human ∧ d ∈ default [] bact) ∧
  NoDup (shared_domains r) ∧
  overlap_count r = length (shared_domains r) ∧
  overlap_count r ≤ length (human_domains r) ∧
  overlap_count r ≤ length (bacteria_domains r) ∧
  (has_overlap r = true ↔ ∃ d, d ∈ default [] human ∧ d ∈ default [] bact) ∧
  overlap_count (check_domain_overlap bact human) = overlap_count r ∧
  has_overlap (check_domain_overlap bact human) = has_overlap r.
Proof.
  unfold check_domain_overlap.
  cbn [shared_domains overlap_count human_domains bacteria_domains has_overlap].
  assert (Hcomm : domain_set bact ∩ domain_set human
                  = domain_set human ∩ domain_set bact)
    by (apply leibniz_equiv, (comm (∩))).
  split_and!.
  - intros d. rewrite elem_of_elements, elem_of_intersection.
    by rewrite !elem_of_domain_set.
  - apply NoDup_elements.
  - done.
  - apply (subseteq_size (domain_set human ∩ domain_set bact) (domain_set human)).
    apply intersection_subseteq_l.
  - apply (subseteq_size (domain_set human ∩ domain_set bact) (domain_set bact)).
    apply intersection_subseteq_r.
  - rewrite bool_decide_eq_true. split.
    + intros (d & Hd)%size_pos_elem_of.
      exists d. apply elem_of_intersection in Hd.
      by rewrite !elem_of_domain_set in Hd.
    + intros (d & Hh & Hb).
      assert (Hin : d ∈ domain_set human ∩ domain_set bact).
      { apply elem_of_intersection. by rewrite !elem_of_domain_set. }
      destruct (size (domain_set human ∩ domain_set bact)) eqn:E; [|lia].
      apply size_empty_inv in E. rewrite E in Hin. by apply elem_of_empty in Hin.
  - by rewrite Hcomm.
  - by rewrite Hcomm.
Qed.

(** ** Bounds on the score *)

(** X20: the returned score is at least S[i][j] - threshold for every
    entry of the matrix, whatever the gap penalties; so it is positive as
    soon as one entry exceeds the threshold. *)
Theorem score_at_least_best_cell M go ge th :
  wf M →
  ∃ score al H,
    smith_waterman_chunks M go ge th = Some (score, al, H) ∧
    ∀ i j s, getitem M i j = Some s → (s - th <= score)%Q.
Proof.
  intros HM.
  destruct (smith_waterman_chunks_spec M go ge th HM)
    as (st & al & _ & Hinv & Hsw & _).
  exists (max_score st), al, (H_matrix st). split; [done|].
  intros i j s Hs.
  destruct (getitem_Some_lt M i j s HM Hs) as [Hi Hj].
  destruct (fill_inv_final M go ge th st (S i) (S j) Hinv) as (_ & _ & Hub);
    [lia|lia|].
  destruct (table_cases M go ge th i j) as (v & t & Etab & Hle & _).
  rewrite Etab in Hub. cbn [fst] in Hub. rewrite Hs in Hle.
  cbn [default from_option id] in Hle.
  pose proof (table_nonneg M go ge th i j). lra.
Qed.

Lemma score_at_least_best_cell_witness :
  ∃ score al H,
    smith_waterman_chunks test_S GAP_OPEN GAP_EXTEND SCORE_THRESHOLD
      = Some (score, al, H) ∧
    ∀ i j s, getitem test_S i j = Some s → (s - SCORE_THRESHOLD <= score)%Q.
Proof.
  exact (score_at_least_best_cell test_S GAP_OPEN GAP_EXTEND SCORE_THRESHOLD
           wf_test_S).
Defined.

(** X21: with gap_extend = gap_open the aligner is monotone in the whole
    matrix: when no entry of M' exceeds the entry of M at the same place,
    the score on M' is at most the score on M, and so is every cell of the
    returned score matrix. *)
Theorem score_monotone_equal_gaps M' M g th :
  wf M → wf M' → cells_le M' M →
  ∃ score' al' H' score al H,
    smith_waterman_chunks M' g g th = Some (score', al', H') ∧
    smith_waterman_chunks M g g th = Some (score, al, H) ∧
    (score' <= score)%Q ∧
    ∀ i j h' h, getitem H' i j = Some h' → getitem H i j = Some h →
                (h' <= h)%Q.
Proof.
  intros HM HM' Hle.
  destruct (smith_waterman_chunks_spec M' g g th HM')
    as (st' & al' & _ & Hinv' & Hsw' & _).
  destruct (smith_waterman_chunks_spec M g g th HM)
    as (st & al & _ & Hinv & Hsw & _).
  exists (max_score st'), al', (H_matrix st'), (max_score st), al, (H_matrix st).
  split_and!; [done|done|by eapply (max_score_mono M' M)|].
  intros i j h' h Hh' Hh.
  destruct (getitem_Some_lt _ i j h (inv_wf_H _ _ _ _ _ _ _ Hinv) Hh) as [Hi Hj].
  pose proof (inv_shape_H _ _ _ _ _ _ _ Hinv) as Hsh. injection Hsh as Hr Hc.
  rewrite Hr in Hi. rewrite Hc in Hj.
  pose proof Hle as [Hshape _]. injection Hshape as Hr' Hc'.
  destruct (fill_inv_final M g g th st i j Hinv) as (E & _); [lia|lia|].
  destruct (fill_inv_final M' g g th st' i j Hinv') as (E' & _); [lia|lia|].
  rewrite E in Hh. rewrite E' in Hh'. injection Hh as <-. injection Hh' as <-.
  apply (table_mono M' M g th HM HM' Hle); lia.
Qed.

Lemma score_monotone_equal_gaps_witness :
  ∃ score' al' H' score al H,
    smith_waterman_chunks mono_S GAP_OPEN GAP_OPEN SCORE_THRESHOLD
      = Some (score', al', H') ∧
    smith_waterman_chunks mono_S' GAP_OPEN GAP_OPEN SCORE_THRESHOLD
      = Some (score, al, H) ∧
    (score' <= score)%Q.
Proof.
  destruct (score_monotone_equal_gaps mono_S mono_S' GAP_OPEN SCORE_THRESHOLD)
    as (s' & a' & H' & s & a & H & E' & E & Hle & _).
  - split; [reflexivity|]. repeat constructor.
  - split; [reflexivity|]. repeat constructor.
  - apply (setitem_cells_le mono_S mono_S' 1 1 (1 # 4)%Q (3 # 4)%Q);
      [reflexivity|lra|reflexivity].
  - exists s', a', H', s, a, H. split; [exact E'|]. split; [exact E|exact Hle].
Defined.
